(** * Message reconciliation of the chat reference application

    A shallow embedding of [src/hooks/chat/useMessages.tsx]: the
    conversation view model [useMessagesWrapped] (paginated load, live
    events, de-duplication by [id]) and the feed compositor [useMessages]
    (merge with the bot feed, routing of reactions). *)

From Stdlib Require Import ZArith String Ascii List Lia.
From stdpp Require Import base tactics option list sorting strings pretty.

Open Scope string_scope.
Open Scope list_scope.
Open Scope Z_scope.

(** ** Data model *)

(** The payload of a reaction event; whether it is a [created] or a
    [deleted] event is given by the listener that receives it. *)
Record Reaction := mkReaction {
  reactionId : string;
  messageId : string;
  rtype : string;
  actorId : string;
}.

(** One entry of a message's reaction collection. *)
Record ReactionEntry := mkEntry {
  reactorId : string;
  entryId : string;
  entryType : string;
}.

(** A chat message as the hooks see it; [created_at] is a timestamp in
    milliseconds. *)
Record Message := mkMessage {
  id : string;
  conversation_id : string;
  created_by : string;
  created_at : Z;
  content : string;
  reactions : list ReactionEntry;
}.

#[global] Instance Reaction_eq_dec : EqDecision Reaction.
Proof. solve_decision. Defined.

#[global] Instance ReactionEntry_eq_dec : EqDecision ReactionEntry.
Proof. solve_decision. Defined.

#[global] Instance Message_eq_dec : EqDecision Message.
Proof. solve_decision. Defined.

(** ** underscore's [uniq] with an iteratee *)

Module Underscore.
Section Uniq.
Context {A K : Type} `{EqDecision K}.

(** [contains(seen, computed)] *)
Definition contains (seen : list K) (computed : K) : bool :=
  bool_decide (computed ∈ seen).

(** The loop of [uniq(array, iteratee)]: [seen] collects the computed
    keys, [result] the values whose key was not seen before. *)
Fixpoint uniq_loop (iteratee : A → K) (array : list A)
    (seen : list K) (result : list A) : list A :=
  match array with
  | [] => result
  | value :: rest =>
      let computed := iteratee value in
      if contains seen computed
      then uniq_loop iteratee rest seen result
      else uniq_loop iteratee rest (seen ++ [computed]) (result ++ [value])
  end.

Definition uniq (array : list A) (iteratee : A → K) : list A :=
  uniq_loop iteratee array [] [].

(** The values the loop still adds, given the keys seen so far. *)
Fixpoint fresh (iteratee : A → K) (seen : list K) (array : list A) : list A :=
  match array with
  | [] => []
  | value :: rest =>
      if contains seen (iteratee value)
      then fresh iteratee seen rest
      else value :: fresh iteratee (seen ++ [iteratee value]) rest
  end.
End Uniq.
End Underscore.

Import Underscore.

(** [array.find(({ id }) => id === messageId)] *)
Definition find_by_id (messages : list Message) (messageId : string)
    : option Message :=
  find (λ m, bool_decide (id m = messageId)) messages.

(** Non-decreasing [created_at] along the list. *)
Definition chronological (l : list Message) : Prop :=
  Sorted Z.le (created_at <$> l).


(** ** The reaction mapper *)

Module ReactionMapper.

Definition has_entry (message : Message) (reaction : Reaction) : bool :=
  bool_decide (reactionId reaction ∈ entryId <$> reactions message).

Definition entry_of (reaction : Reaction) : ReactionEntry :=
  {| reactorId := actorId reaction;
     entryId := reactionId reaction;
     entryType := rtype reaction |}.

Definition with_reactions (message : Message) (rs : list ReactionEntry)
    : Message :=
  {| id := id message;
     conversation_id := conversation_id message;
     created_by := created_by message;
     created_at := created_at message;
     content := content message;
     reactions := rs |}.

(** Modelled from the spec: [mapFromUpdate] of [@/lib/reaction] is not
    among the sources. On a [created] event, if the message's [id] is
    the event's [messageId], the entry [{reactorId, reactionId, type}]
    is added to the message's reaction collection if no entry with the
    same [reactionId] exists; any other message is returned as it is. *)
Definition mapFromUpdate (message : Message) (reaction : Reaction)
    (username : option string) : Message :=
  if bool_decide (id message = messageId reaction) then
    if has_entry message reaction then message
    else with_reactions message (reactions message ++ [entry_of reaction])
  else message.

(** Modelled from the spec: [mapFromDelete] of [@/lib/reaction] is not
    among the sources. On a [deleted] event the entry matching the
    event's [reactionId] is removed, with no change if there is none;
    a message whose [id] does not match is returned as it is. *)
Definition mapFromDelete (message : Message) (reaction : Reaction)
    (username : option string) : Message :=
  if bool_decide (id message = messageId reaction) then
    if has_entry message reaction
    then with_reactions message
           (filter (λ e, entryId e ≠ reactionId reaction) (reactions message))
    else message
  else message.

End ReactionMapper.

(** ** The conversation view model: [useMessagesWrapped] *)

Module ViewModel.
Import ReactionMapper.

Inductive Direction := forwards | backwards.

Record QueryOptions := mkQuery {
  limit : nat;
  direction : Direction;
  startId : option string;
}.

(** How the promise of [conversation.messages.query] settles. *)
Inductive Outcome :=
| Resolved (nextMessages : list Message)
| Rejected.

(** The state of one mounted hook. Every run of the loading effect has
    a [mounted] variable of its own, captured by its [initMessages] and
    by its cleanup; the runs are numbered in the order they start, and
    the query a run issues carries the run's number. *)
Record Hook := mkHook {
  messages : list Message;
  isLoading : bool;
  pageCursor : option string;
  deps : option (string * option string);
  mounted : list bool;
  queries : list QueryOptions;
}.

Definition init : Hook :=
  {| messages := []; isLoading := false; pageCursor := None;
     deps := None; mounted := []; queries := [] |}.

Definition setMessages (f : list Message → list Message) (st : Hook) : Hook :=
  {| messages := f (messages st); isLoading := isLoading st;
     pageCursor := pageCursor st; deps := deps st;
     mounted := mounted st; queries := queries st |}.

Definition setIsLoading (b : bool) (st : Hook) : Hook :=
  {| messages := messages st; isLoading := b;
     pageCursor := pageCursor st; deps := deps st;
     mounted := mounted st; queries := queries st |}.

Definition setPageCursor (c : option string) (st : Hook) : Hook :=
  {| messages := messages st; isLoading := isLoading st;
     pageCursor := c; deps := deps st;
     mounted := mounted st; queries := queries st |}.

Definition setDeps (d : option (string * option string)) (st : Hook) : Hook :=
  {| messages := messages st; isLoading := isLoading st;
     pageCursor := pageCursor st; deps := d;
     mounted := mounted st; queries := queries st |}.

(** [useEffect(() => { setMessages([]) }, [channelName])] *)
Definition effect_reset (st : Hook) : Hook :=
  setMessages (λ _, []) st.

(** The body of the loading effect up to the [await]: the flag is set,
    the cursor is cleared, and [initMessages] issues the query with the
    options read from the cursor as it is then. *)
Definition effect_load (st : Hook) : Hook :=
  let st1 := setIsLoading true st in
  let st2 := setPageCursor None st1 in
  let options :=
    {| limit := 200; direction := backwards; startId := pageCursor st2 |} in
  {| messages := messages st2; isLoading := isLoading st2;
     pageCursor := pageCursor st2; deps := deps st2;
     mounted := mounted st2 ++ [true];
     queries := queries st2 ++ [options] |}.

(** The cleanup of the latest run of the loading effect:
    [mounted = false]. *)
Definition cleanup_load (st : Hook) : Hook :=
  {| messages := messages st; isLoading := isLoading st;
     pageCursor := pageCursor st; deps := deps st;
     mounted := <[pred (length (mounted st)) := false]> (mounted st);
     queries := queries st |}.

(** [nextMessages.at(-1)?.id ?? null] *)
Definition last_id (nextMessages : list Message) : option string :=
  id <$> last nextMessages.

(** The updater given to [setMessages] when a page has arrived. *)
Definition merge_page (nextMessages prevMessages : list Message)
    : list Message :=
  uniq (nextMessages ++ prevMessages) id.

(** [initMessages] of run [i] after its [await]: a rejection leaves the
    function at the [await]; a result is applied if the run's [mounted]
    is still true. *)
Definition initMessages_resume (i : nat) (o : Outcome) (st : Hook) : Hook :=
  match o with
  | Rejected => st
  | Resolved nextMessages =>
      match mounted st !! i with
      | Some true =>
          let st1 := setIsLoading false st in
          let st2 := setPageCursor (last_id nextMessages) st1 in
          setMessages (merge_page nextMessages) st2
      | _ => st
      end
  end.

Definition handleAdd (message : Message) : Hook → Hook :=
  setMessages (λ prevMessage, uniq (prevMessage ++ [message]) id).

Definition update_with (updated : Message) (message : Message) : Message :=
  if bool_decide (id message ≠ id updated) then message else updated.

Definition handleUpdate (updated : Message) : Hook → Hook :=
  setMessages (λ prevMessage, update_with updated <$> prevMessage).

Definition handleDelete (message : Message) : Hook → Hook :=
  setMessages (λ prevMessage,
    filter (λ m, id m ≠ id message) prevMessage).

(** [username] is the second half of the dependencies of the last
    render. *)
Definition username (st : Hook) : option string :=
  p ← deps st; p.2.

Definition handleReactionAdd (reaction : Reaction) (st : Hook) : Hook :=
  setMessages (λ prevMessage,
    (λ message, mapFromUpdate message reaction (username st)) <$> prevMessage) st.

Definition handleReactionDelete (reaction : Reaction) (st : Hook) : Hook :=
  setMessages (λ prevMessage,
    (λ message, mapFromDelete message reaction (username st)) <$> prevMessage) st.

(** What can happen to a hook: a render with its arguments (the first
    one mounts it), its unmount, the settling of the query of run [i],
    and the call of one of its five listeners. *)
Inductive Event :=
| Render (channelName : string) (username : option string)
| Unmount
| QuerySettled (i : nat) (o : Outcome)
| MessageCreated (message : Message)
| MessageEdited (message : Message)
| MessageDeleted (message : Message)
| ReactionCreated (reaction : Reaction)
| ReactionDeleted (reaction : Reaction).

(** Modelled from the spec: [useConversation] is not among the sources;
    a conversation is identified by its [channelName], so the
    conversation object changes exactly when the channel name does. *)
Definition conversation_changed (channelName channelName' : string) : bool :=
  bool_decide (channelName ≠ channelName').

(** A render runs the effects whose dependencies changed, after the
    cleanup of their previous run; the first render runs them all. *)
Definition render (channelName : string) (user : option string)
    (st : Hook) : Hook :=
  match deps st with
  | None =>
      setDeps (Some (channelName, user)) (effect_load (effect_reset st))
  | Some (channelName0, user0) =>
      let reload :=
        conversation_changed channelName0 channelName
        || bool_decide (user0 ≠ user) in
      let st1 := if reload then cleanup_load st else st in
      let st2 :=
        if bool_decide (channelName0 ≠ channelName)
        then effect_reset st1 else st1 in
      let st3 := if reload then effect_load st2 else st2 in
      setDeps (Some (channelName, user)) st3
  end.

Definition unmount (st : Hook) : Hook :=
  match deps st with
  | None => st
  | Some _ => setDeps None (cleanup_load st)
  end.

Definition step (st : Hook) (e : Event) : Hook :=
  match e with
  | Render channelName user => render channelName user st
  | Unmount => unmount st
  | QuerySettled i o => initMessages_resume i o st
  | MessageCreated m => handleAdd m st
  | MessageEdited m => handleUpdate m st
  | MessageDeleted m => handleDelete m st
  | ReactionCreated r => handleReactionAdd r st
  | ReactionDeleted r => handleReactionDelete r st
  end.

Definition run (evs : list Event) (st : Hook) : Hook :=
  fold_left step evs st.

(** The messages after a sequence of pages has arrived, first page
    first. *)
Definition load_pages (pages : list (list Message)) : list Message :=
  fold_left (λ prevMessages nextMessages, merge_page nextMessages prevMessages)
    pages [].

(** Only the latest run of the loading effect can have its flag set, and
    only while the hook is mounted. *)
Definition one_live_run (st : Hook) : Prop :=
  ∀ i : nat, mounted st !! i = Some true →
       S i = length (mounted st) ∧ is_Some (deps st).

End ViewModel.

(** ** The bot feed generator: [useBots] *)

Module Bots.

Record BotScriptEntry := mkScriptEntry {
  offsetFromAnchor : Z;
  author : string;
  body : string;
}.

(** [botConfig] of [@/config/bots]: the hooks read [usernamePrefix] and
    [channelName] from it; the script is the generator's input. *)
Record BotConfig := mkConfig {
  usernamePrefix : string;
  channelName : string;
  script : list BotScriptEntry;
}.

Definition by_offset (e1 e2 : BotScriptEntry) : Prop :=
  offsetFromAnchor e1 ≤ offsetFromAnchor e2.

#[global] Instance by_offset_dec e1 e2 : Decision (by_offset e1 e2).
Proof. unfold by_offset. apply _. Defined.

Definition synthetic (bot_id : nat → BotScriptEntry → string)
    (cfg : BotConfig) (anchor : Z) (n : nat) (e : BotScriptEntry) : Message :=
  {| id := bot_id n e;
     conversation_id := channelName cfg;
     created_by := author e;
     created_at := anchor + offsetFromAnchor e;
     content := body e;
     reactions := [] |}.

(** Modelled from the spec: [useBots] is not among the sources. Its
    messages are the script's entries in the order of their offsets,
    each with [created_at = anchor + offset], revealed once the wall
    clock [now] has reached that time; with no anchor nothing is
    emitted. How a synthetic message gets its [id] is left to
    [bot_id]. *)
Definition useBots (bot_id : nat → BotScriptEntry → string)
    (cfg : BotConfig) (anchor : option Z) (now : Z) : list Message :=
  match anchor with
  | None => []
  | Some a =>
      imap (synthetic bot_id cfg a)
        (filter (λ e, a + offsetFromAnchor e ≤ now)
           (merge_sort by_offset (script cfg)))
  end.

End Bots.

(** ** The feed compositor: [useMessages] *)

Module Compositor.
Section UseMessages.
Import Bots.

(** [process.env.NEXT_PUBLIC_WITH_BOTS === "true"] *)
Variable WITH_BOTS : bool.
Variable botConfig : BotConfig.

(** [userConversation?.messages?.[0]?.created_at], the second argument
    of [useBots]. *)
Definition anchor (userMessages : list Message) : option Z :=
  created_at <$> userMessages !! 0%nat.

Definition messages (userMessages botMessages : list Message)
    : list Message :=
  uniq (userMessages ++ (if WITH_BOTS then botMessages else [])) id.

(** The call an action ends in: on the bot feed or on the view model,
    which forwards to the backend. *)
Inductive Call :=
| BotAddReaction (messageId type : string)
| UserAddReaction (messageId type : string)
| BotRemoveReaction (reactionId : string)
| UserRemoveReaction (reactionId : string).

(** An optional chain that met [undefined] is falsy. *)
Definition truthy (o : option bool) : bool := default false o.

Definition addReaction (messages : list Message)
    (messageId type : string) : Call :=
  let message := find_by_id messages messageId in
  if WITH_BOTS
     && truthy ((λ m, String.prefix (usernamePrefix botConfig) (created_by m))
                  <$> message)
  then BotAddReaction messageId type
  else UserAddReaction messageId type.

Definition removeReaction (messages : list Message)
    (messageId reactionId : string) : Call :=
  let message := find_by_id messages messageId in
  if WITH_BOTS
     && bool_decide (conversation_id <$> message = Some (channelName botConfig))
  then BotRemoveReaction reactionId
  else UserRemoveReaction reactionId.

(** The feed [useMessages] exposes for a state of the view model, at
    wall-clock time [now]. *)
Definition feed (bot_id : nat → BotScriptEntry → string)
    (st : ViewModel.Hook) (now : Z) : list Message :=
  messages (ViewModel.messages st)
    (useBots bot_id botConfig (anchor (ViewModel.messages st)) now).

End UseMessages.
End Compositor.

(** ** Properties as the specification words them *)

Module Asked.
Import ViewModel.

(** A failed page query leaves list and cursor as they are and clears
    the loading flag. *)
Definition failure_clears_loading (st : Hook) (i : nat) : Prop :=
  let st' := step st (QuerySettled i Rejected) in
  messages st' = messages st
  ∧ pageCursor st' = pageCursor st
  ∧ isLoading st' = false.

(** The cursor names an oldest message of the fetched page, and is null
    for an empty page. *)
Definition cursor_is_oldest (page : list Message) (cursor : option string)
    : Prop :=
  match cursor with
  | None => page = []
  | Some k =>
      ∃ m, m ∈ page ∧ id m = k
           ∧ ∀ m', m' ∈ page → created_at m ≤ created_at m'
  end.


(** The anchor is the creation time of an earliest message of the list. *)
Definition anchor_is_earliest (userMessages : list Message)
    (anchor : option Z) : Prop :=
  match anchor with
  | None => userMessages = []
  | Some a =>
      (∃ m, m ∈ userMessages ∧ created_at m = a)
      ∧ ∀ m, m ∈ userMessages → a ≤ created_at m
  end.

(** The hook's channel changes at the render [e]. *)
Definition channel_changes (st : Hook) (e : Event) : Prop :=
  ∃ c u c0 u0, e = Render c u ∧ deps st = Some (c0, u0) ∧ c0 ≠ c.

(** Every page is chronological, and a page that arrives later holds
    nothing newer than a page that arrived before it. *)
Fixpoint backward_pages (pages : list (list Message)) : Prop :=
  match pages with
  | [] => True
  | page :: later =>
      chronological page
      ∧ Forall (λ q, ∀ x y, x ∈ q → y ∈ page → created_at x ≤ created_at y) later
      ∧ backward_pages later
  end.

(** The author of [m] starts with the bot prefix. *)
Definition bot_author (cfg : Bots.BotConfig) (m : Message) : bool :=
  String.prefix (Bots.usernamePrefix cfg) (created_by m).

(** Both actions on [m] go to the bot feed exactly when [m] has a bot
    author, and to the view model otherwise. *)
Definition routed_by_author (WITH_BOTS : bool) (cfg : Bots.BotConfig)
    (feed : list Message) (m : Message) : Prop :=
  ∀ type rid,
    Compositor.addReaction WITH_BOTS cfg feed (id m) type =
      (if bot_author cfg m
       then Compositor.BotAddReaction (id m) type
       else Compositor.UserAddReaction (id m) type)
    ∧ Compositor.removeReaction WITH_BOTS cfg feed (id m) rid =
      (if bot_author cfg m
       then Compositor.BotRemoveReaction rid
       else Compositor.UserRemoveReaction rid).

End Asked.

(** ** Sample data *)

Module Sample.
Import Bots.

Definition msg (i author : string) (t : Z) : Message :=
  mkMessage i "general" author t "" [].

Definition m1 : Message := msg "m1" "alice" 0.
Definition m2 : Message := msg "m2" "bob" 100.
Definition real_x : Message := msg "x" "alice" 10.
Definition bot_x : Message := mkMessage "x" "bots" "bot-1" 15 "beep" [].
Definition b1 : Message := mkMessage "b1" "bots" "bot-1" 5 "beep" [].
Definition b2 : Message := mkMessage "b2" "bots" "bot-1" 150 "boop" [].

(** A message of a real user whose name starts like a bot's. *)
Definition m3 : Message := msg "m3" "bot-alice" 7.

Definition r1 : Reaction := mkReaction "r1" "m1" "emoji" "u2".

Definition botConfig : BotConfig :=
  {| usernamePrefix := "bot-"; channelName := "bots";
     script := [mkScriptEntry 5 "bot-1" "beep"] |}.

Definition bot_id (n : nat) (e : BotScriptEntry) : string :=
  match n with O => "b1" | _ => "b" ++ body e end.

End Sample.

(** ** The message item: [src/components/MessageItem/index.tsx] *)

Module MessageItem.

(** [ToInt32]: the signed 32-bit integer congruent to [x]. *)
Definition toInt32 (x : Z) : Z := (x + 2 ^ 31) mod 2 ^ 32 - 2 ^ 31.

(** [x << n] on numbers: both operands go through 32 bits, the shift
    count through its low five bits. *)
Definition shl (x n : Z) : Z :=
  toInt32 (Z.shiftl (toInt32 x) (Z.land n 31)).

(** One turn of the loop of [stringToHue]:
    [hash = str.charCodeAt(i) + ((hash << 5) - hash)]. *)
Definition hash_step (hash charCode : Z) : Z :=
  charCode + (shl hash 5 - hash).

(** The loop, over the UTF-16 code units of [str]. *)
Definition hash_loop (str : list Z) (hash : Z) : Z :=
  fold_left hash_step str hash.

(** [hash % 360]: the remainder takes the sign of [hash]. *)
Definition stringToHue (str : list Z) : Z :=
  Z.rem (hash_loop str 0) 360.

Definition getUserColor (username : list Z) : string :=
  let hue := stringToHue username in
  let saturation := 50 in
  let lightness := 60 in
  "hsl(" +:+ pretty hue +:+ ", " +:+ pretty saturation +:+ "%, "
  +:+ pretty lightness +:+ "%)".

(** A UTF-16 code unit, as [charCodeAt] returns it. *)
Definition code_unit (c : Z) : Prop := 0 ≤ c < 65536.

(** The code units of a string of one-byte characters. *)
Definition charCodes (s : string) : list Z :=
  (λ a, Z.of_N (N_of_ascii a)) <$> list_ascii_of_string s.

(** The hash without the 32-bit shift: [31 * hash + charCode] at each
    turn. *)
Definition poly31 (str : list Z) : Z :=
  fold_left (λ hash charCode, 31 * hash + charCode) str 0.

(** The largest value of [poly31] on [k] codes below 128, for [k] up to
    five. *)
Definition short_bound (k : nat) : Z :=
  match k with
  | 0%nat => 0
  | 1%nat => 127
  | 2%nat => 4064
  | 3%nat => 126111
  | 4%nat => 3909568
  | _ => 121196735
  end.

End MessageItem.

(** ** The chat context: [src/hooks/useChat.tsx] *)

Module Chat.

(** The value of [ChatContext]: an object whose [chat] may be missing. *)
Record ChatContextValue (A : Type) := mkContext { chat : option A }.
Arguments mkContext {A} _.
Arguments chat {A} _.

Inductive Result (A : Type) :=
| Returned (value : A)
| Thrown (message : string).
Arguments Returned {A} _.
Arguments Thrown {A} _.

(** [useContext(ChatContext) ?? {}], then the check of [chat]. *)
Definition useChat {A} (context : option (ChatContextValue A)) : Result A :=
  let value := default (mkContext None) context in
  match chat value with
  | None => Thrown "Chat is not setup"
  | Some c => Returned c
  end.

End Chat.

(** ** Events of the hook by kind *)

Module Kinds.
Import ViewModel.

Definition is_reaction_event (e : Event) : bool :=
  match e with
  | ReactionCreated _ | ReactionDeleted _ => true
  | _ => false
  end.

(** The query every run of the loading effect issues. *)
Definition latest_page_query : QueryOptions :=
  {| limit := 200; direction := backwards; startId := None |}.

End Kinds.

(** * Properties *)

(** ** [uniq] keeps the first value of every key *)

Section UniqFacts.
Context {A K : Type} `{EqDecision K}.
Implicit Types (f : A → K) (seen : list K) (array : list A).

Lemma uniq_loop_fresh f array seen result :
  uniq_loop f array seen result = result ++ fresh f seen array.
Proof.
  revert seen result.
  induction array as [|v rest IH]; intros seen result; simpl.
  - by rewrite app_nil_r.
  - destruct (contains seen (f v)); rewrite IH; [done|].
    by rewrite <- app_assoc.
Qed.

Lemma uniq_fresh f array : uniq array f = fresh f [] array.
Proof. unfold uniq. by rewrite uniq_loop_fresh. Qed.

Lemma contains_true seen k : contains seen k = true ↔ k ∈ seen.
Proof. unfold contains. apply bool_decide_eq_true. Qed.

Lemma contains_false seen k : contains seen k = false ↔ k ∉ seen.
Proof. unfold contains. apply bool_decide_eq_false. Qed.

(** Only the set of seen keys matters. *)
Lemma fresh_seen_ext f seen seen' array :
  (∀ k, k ∈ seen ↔ k ∈ seen') →
  fresh f seen array = fresh f seen' array.
Proof.
  revert seen seen'.
  induction array as [|v rest IH]; intros seen seen' Hext; simpl; [done|].
  assert (contains seen (f v) = contains seen' (f v)) as ->.
  { unfold contains. apply bool_decide_ext, Hext. }
  destruct (contains seen' (f v)); [by apply IH|].
  f_equal. apply IH. intros k. rewrite !elem_of_app. by rewrite Hext.
Qed.

Lemma fresh_elem_of f seen array x :
  x ∈ fresh f seen array → x ∈ array ∧ f x ∉ seen.
Proof.
  revert seen.
  induction array as [|v rest IH]; intros seen; simpl.
  - by rewrite elem_of_nil.
  - destruct (contains seen (f v)) eqn:Hc.
    + intros [??]%IH. split; [by right|done].
    + apply contains_false in Hc.
      rewrite elem_of_cons. intros [->|[? Hn]%IH].
      * split; [by left|done].
      * split; [by right|]. rewrite elem_of_app in Hn. tauto.
Qed.

Lemma fresh_keys f seen array k :
  k ∈ f <$> fresh f seen array ↔ k ∈ f <$> array ∧ k ∉ seen.
Proof.
  revert seen.
  induction array as [|v rest IH]; intros seen; simpl.
  - rewrite elem_of_nil. tauto.
  - destruct (contains seen (f v)) eqn:Hc.
    + apply contains_true in Hc. rewrite IH, elem_of_cons.
      split; [tauto|]. intros [[->|?] ?]; tauto.
    + apply contains_false in Hc.
      rewrite fmap_cons, !elem_of_cons, IH, elem_of_app, list_elem_of_singleton.
      destruct (decide (k = f v)) as [->|]; tauto.
Qed.

Lemma fresh_NoDup f seen array : NoDup (f <$> fresh f seen array).
Proof.
  revert seen.
  induction array as [|v rest IH]; intros seen; simpl.
  - constructor.
  - destruct (contains seen (f v)); [apply IH|].
    rewrite fmap_cons. constructor; [|apply IH].
    rewrite fresh_keys, elem_of_app, list_elem_of_singleton. tauto.
Qed.

Lemma fresh_sublist f seen array : fresh f seen array `sublist_of` array.
Proof.
  revert seen.
  induction array as [|v rest IH]; intros seen; simpl; [done|].
  destruct (contains seen (f v)).
  - by apply sublist_cons.
  - by apply sublist_skip.
Qed.

(** The first value carrying a key is the one that is kept. *)
Lemma fresh_find f seen array k :
  find (λ x, bool_decide (f x = k)) (fresh f seen array) =
  if contains seen k then None
  else find (λ x, bool_decide (f x = k)) array.
Proof.
  revert seen.
  induction array as [|v rest IH]; intros seen; simpl.
  - by destruct (contains seen k).
  - destruct (contains seen (f v)) eqn:Hv.
    + rewrite IH. destruct (contains seen k) eqn:Hk; [done|].
      case_bool_decide as Heq; [|done]. congruence.
    + simpl. case_bool_decide as Heq.
      * subst k. by rewrite Hv.
      * rewrite IH. assert (contains (seen ++ [f v]) k = contains seen k) as ->; [|done].
        unfold contains. apply bool_decide_ext.
        rewrite elem_of_app, list_elem_of_singleton. intuition congruence.
Qed.

Lemma fresh_app f seen l1 l2 :
  fresh f seen (l1 ++ l2) =
  fresh f seen l1 ++ fresh f (seen ++ (f <$> l1)) l2.
Proof.
  revert seen.
  induction l1 as [|v rest IH]; intros seen; simpl.
  - by rewrite app_nil_r.
  - destruct (contains seen (f v)) eqn:Hv.
    + rewrite IH. f_equal. apply fresh_seen_ext. intros k.
      apply contains_true in Hv.
      rewrite !elem_of_app, elem_of_cons. intuition (subst; auto).
    + rewrite IH. simpl. do 2 f_equal. by rewrite <- app_assoc.
Qed.

(** A list whose keys are already distinct is returned as it is. *)
Lemma fresh_id f seen array :
  NoDup (f <$> array) → (∀ k, k ∈ f <$> array → k ∉ seen) →
  fresh f seen array = array.
Proof.
  revert seen.
  induction array as [|v rest IH]; intros seen Hnd Hdisj; simpl; [done|].
  rewrite fmap_cons in Hnd. apply NoDup_cons in Hnd as [Hv Hnd].
  assert (contains seen (f v) = false) as ->.
  { apply contains_false, Hdisj. rewrite fmap_cons. by left. }
  f_equal. apply IH; [done|]. intros k Hk.
  rewrite elem_of_app, list_elem_of_singleton. intros [Hs| ->]; [|done].
  apply (Hdisj k); [|done]. rewrite fmap_cons. by right.
Qed.

End UniqFacts.

(** ** The reaction mapper keeps a message's [id] *)

Section ReactionMapperFacts.
Import ReactionMapper.

Lemma mapFromUpdate_id m r u : id (mapFromUpdate m r u) = id m.
Proof. unfold mapFromUpdate. by repeat case_match. Qed.

Lemma mapFromDelete_id m r u : id (mapFromDelete m r u) = id m.
Proof. unfold mapFromDelete. by repeat case_match. Qed.

Lemma mapFromUpdate_has_entry m r u :
  id m = messageId r → has_entry (mapFromUpdate m r u) r = true.
Proof.
  intros Hid. unfold mapFromUpdate.
  rewrite bool_decide_eq_true_2 by done.
  destruct (has_entry m r) eqn:Hh; [done|].
  unfold has_entry. simpl. apply bool_decide_eq_true.
  rewrite fmap_app, elem_of_app. right. simpl. by left.
Qed.

End ReactionMapperFacts.

(** ** Looking a message up by its [id] *)

Section FindFacts.
Implicit Types (l : list Message) (k : string) (m : Message).

Lemma find_by_id_Some l k m :
  find_by_id l k = Some m → m ∈ l ∧ id m = k.
Proof.
  unfold find_by_id. intros [Hin Hk]%find_some.
  apply bool_decide_eq_true in Hk. by rewrite list_elem_of_In.
Qed.

Lemma find_by_id_None l k :
  find_by_id l k = None ↔ k ∉ id <$> l.
Proof.
  unfold find_by_id. induction l as [|x l IH]; simpl.
  - rewrite elem_of_nil. tauto.
  - rewrite elem_of_cons. case_bool_decide as Hx.
    + split; [done|]. intros []. by left.
    + rewrite IH. intuition congruence.
Qed.

Lemma find_by_id_app l1 l2 k :
  find_by_id (l1 ++ l2) k =
  match find_by_id l1 k with
  | Some m => Some m
  | None => find_by_id l2 k
  end.
Proof.
  unfold find_by_id. induction l1 as [|x l1 IH]; simpl; [done|].
  by case_bool_decide.
Qed.

Lemma find_by_id_uniq l k : find_by_id (uniq l id) k = find_by_id l k.
Proof. unfold find_by_id. by rewrite uniq_fresh, fresh_find. Qed.

Lemma filter_id_absent l k :
  k ∉ id <$> l → filter (λ x, id x = k) l = [].
Proof.
  induction l as [|x l IH]; [done|].
  rewrite fmap_cons, not_elem_of_cons. intros [Hx Hl].
  rewrite filter_cons_False by congruence. by apply IH.
Qed.

(** In a list with distinct ids a message is the only entry of its id,
    and the one a lookup finds. *)
Lemma NoDup_ids_only l m :
  NoDup (id <$> l) → m ∈ l →
  filter (λ x, id x = id m) l = [m] ∧ find_by_id l (id m) = Some m.
Proof.
  unfold find_by_id. induction l as [|x l IH]; intros Hnd Hin.
  - by apply elem_of_nil in Hin.
  - rewrite fmap_cons in Hnd. apply NoDup_cons in Hnd as [Hx Hnd].
    apply elem_of_cons in Hin as [->|Hin].
    + rewrite filter_cons_True by done. simpl.
      rewrite bool_decide_eq_true_2 by done.
      by rewrite filter_id_absent.
    + assert (id x ≠ id m) as Hne.
      { intros Heq. apply Hx. rewrite Heq. by apply list_elem_of_fmap_2. }
      rewrite filter_cons_False by done. simpl.
      rewrite bool_decide_eq_false_2 by done. by apply IH.
Qed.

Lemma uniq_ids_NoDup l : NoDup (id <$> uniq l id).
Proof. rewrite uniq_fresh. apply fresh_NoDup. Qed.

Lemma uniq_ids l k : k ∈ id <$> uniq l id ↔ k ∈ id <$> l.
Proof. rewrite uniq_fresh, fresh_keys, elem_of_nil. tauto. Qed.

Lemma uniq_sublist l : uniq l id `sublist_of` l.
Proof. rewrite uniq_fresh. apply fresh_sublist. Qed.

Lemma uniq_elem_of l m : m ∈ uniq l id → m ∈ l.
Proof. intros Hm. eapply elem_of_sublist; [done|apply uniq_sublist]. Qed.

Lemma uniq_NoDup_id l : NoDup (id <$> l) → uniq l id = l.
Proof.
  intros Hnd. rewrite uniq_fresh. apply fresh_id; [done|].
  intros k _. apply not_elem_of_nil.
Qed.

(** The entry of [uniq l id] for an id that occurs in [l]: exactly one,
    the first message of [l] with that id. *)
Lemma uniq_only_first l k :
  k ∈ id <$> l →
  ∃ m, filter (λ x, id x = k) (uniq l id) = [m] ∧ find_by_id l k = Some m.
Proof.
  intros Hk. destruct (find_by_id l k) as [m|] eqn:Hf.
  - exists m. split; [|done].
    rewrite <- find_by_id_uniq in Hf.
    apply find_by_id_Some in Hf as [Hin <-].
    by apply NoDup_ids_only; [apply uniq_ids_NoDup|].
  - by apply find_by_id_None in Hf.
Qed.

End FindFacts.

(** ** The merged feed *)

Section MergedFeed.

(** C1: with bots enabled, the merged feed holds exactly one entry for
    every id of either source, and for an id that both sources hold that
    entry is the message of the real source, never the synthetic one. *)
Theorem merged_feed_one_entry_per_id_real_wins (user bot : list Message) :
  let feed := Compositor.messages true user bot in
  NoDup (id <$> feed)
  ∧ (∀ k, k ∈ id <$> feed ↔ k ∈ id <$> user ∨ k ∈ id <$> bot)
  ∧ (∀ k, k ∈ id <$> user ∨ k ∈ id <$> bot →
       ∃ m, filter (λ x, id x = k) feed = [m])
  ∧ (∀ r b, r ∈ user → b ∈ bot → id r = id b →
       ∃ m, filter (λ x, id x = id r) feed = [m]
            ∧ m ∈ user
            ∧ find_by_id user (id r) = Some m
            ∧ (NoDup (id <$> user) → m = r)).
Proof.
  intros feed. unfold feed, Compositor.messages.
  split; [apply uniq_ids_NoDup|].
  split.
  { intros k. by rewrite uniq_ids, fmap_app, elem_of_app. }
  split.
  { intros k Hk.
    destruct (uniq_only_first (user ++ bot) k) as (m & Hm & _).
    - by rewrite fmap_app, elem_of_app.
    - by exists m. }
  intros r b Hr Hb Hid.
  destruct (uniq_only_first (user ++ bot) (id r)) as (m & Hm & Hf).
  { rewrite fmap_app, elem_of_app. left. by apply list_elem_of_fmap_2. }
  rewrite find_by_id_app in Hf.
  destruct (find_by_id user (id r)) as [m'|] eqn:Hu.
  - injection Hf as ->. exists m. split; [done|].
    pose proof (find_by_id_Some _ _ _ Hu) as [Hin Hidm].
    split; [done|]. split; [done|].
    intros Hnd. destruct (NoDup_ids_only user r Hnd Hr) as [_ Hfr].
    congruence.
  - apply find_by_id_None in Hu. destruct Hu. by apply list_elem_of_fmap_2.
Qed.

Lemma merged_feed_one_entry_per_id_real_wins_witness :
  ∃ m, filter (λ x, id x = id Sample.real_x)
         (Compositor.messages true [Sample.real_x] [Sample.bot_x]) = [m]
       ∧ m = Sample.real_x.
Proof.
  destruct (merged_feed_one_entry_per_id_real_wins [Sample.real_x] [Sample.bot_x])
    as (_ & _ & _ & Hwin).
  destruct (Hwin Sample.real_x Sample.bot_x) as (m & Hone & _ & _ & Heq).
  - by left.
  - by left.
  - reflexivity.
  - exists m. split; [exact Hone|]. apply Heq. simpl.
    constructor; [apply not_elem_of_nil|constructor].
Defined.

End MergedFeed.

(** ** The view model: its list never holds an id twice *)

Section ViewModelFacts.
Import ReactionMapper ViewModel.
Implicit Types (st : Hook) (e : Event) (evs : list Event) (i : nat).

Lemma update_with_id updated m : id (update_with updated m) = id m.
Proof. unfold update_with. case_bool_decide as H; congruence. Qed.

Lemma fmap_keeps_ids (f : Message → Message) (l : list Message) :
  (∀ m, id (f m) = id m) → id <$> (f <$> l) = id <$> l.
Proof.
  intros Hf. rewrite <- list_fmap_compose. apply list_fmap_ext.
  intros _ m _. apply Hf.
Qed.

Lemma step_ids_NoDup st e :
  NoDup (id <$> messages st) → NoDup (id <$> messages (step st e)).
Proof.
  intros Hnd. destruct e as [c u| |i o|m|m|m|r|r]; simpl.
  - unfold render. destruct (deps st) as [[c0 u0]|]; simpl; [|constructor].
    repeat case_match; simpl; done || constructor.
  - unfold unmount. by destruct (deps st).
  - unfold initMessages_resume. destruct o as [next|]; [|done].
    destruct (mounted st !! i) as [[]|]; simpl; [|done..].
    apply uniq_ids_NoDup.
  - apply uniq_ids_NoDup.
  - by rewrite fmap_keeps_ids by apply update_with_id.
  - apply (sublist_NoDup _ (id <$> messages st)); [done|].
    apply fmap_sublist, sublist_filter.
  - rewrite fmap_keeps_ids; [done|]. intros m. apply mapFromUpdate_id.
  - rewrite fmap_keeps_ids; [done|]. intros m. apply mapFromDelete_id.
Qed.

Lemma run_app evs evs' st : run (evs ++ evs') st = run evs' (run evs st).
Proof. unfold run. apply fold_left_app. Qed.

Lemma run_snoc evs e st : run (evs ++ [e]) st = step (run evs st) e.
Proof. by rewrite run_app. Qed.

(** Every list the view model exposes has distinct ids. *)
Lemma run_ids_NoDup evs : NoDup (id <$> messages (run evs init)).
Proof.
  induction evs as [|e evs IH] using rev_ind.
  - constructor.
  - rewrite run_snoc. by apply step_ids_NoDup.
Qed.

(** ** The [mounted] flags *)

Lemma cleanup_clears (flags : list bool) i :
  (∀ j, flags !! j = Some true → S j = length flags) →
  (i < length flags)%nat →
  <[pred (length flags) := false]> flags !! i = Some false.
Proof.
  intros Hlast Hi.
  destruct (decide (i = pred (length flags))) as [->|Hne].
  - by apply list_lookup_insert_eq.
  - rewrite list_lookup_insert_ne by done.
    destruct (lookup_lt_is_Some_2 flags i Hi) as [[] Hb]; [|done].
    apply Hlast in Hb. lia.
Qed.

Lemma cleanup_keeps_false (flags : list bool) i j :
  flags !! i = Some false → <[j := false]> flags !! i = Some false.
Proof.
  intros Hi. destruct (decide (j = i)) as [->|Hne].
  - apply list_lookup_insert_eq. by eapply lookup_lt_Some.
  - by rewrite list_lookup_insert_ne.
Qed.

Lemma one_live_run_init : one_live_run init.
Proof. intros i Hi. simpl in Hi. by rewrite lookup_nil in Hi. Qed.

Lemma one_live_run_step st e : one_live_run st → one_live_run (step st e).
Proof.
  intros Hinv.
  assert (∀ j, mounted st !! j = Some true → S j = length (mounted st)) as Hlast.
  { intros j Hj. by apply Hinv. }
  assert (∀ i, (<[pred (length (mounted st)) := false]> (mounted st) ++ [true]) !! i
               = Some true →
               S i = length (<[pred (length (mounted st)) := false]> (mounted st) ++ [true]))
    as Hreload.
  { intros i Hi. rewrite length_app, length_insert. simpl.
    apply lookup_app_Some in Hi as [Hi|[Hge Hi]].
    - pose proof (lookup_lt_Some _ _ _ Hi) as Hlt. rewrite length_insert in Hlt.
      rewrite cleanup_clears in Hi by done. discriminate.
    - rewrite length_insert in Hge, Hi.
      apply list_lookup_singleton_Some in Hi as [Hi _]. lia. }
  destruct e as [c u| |i o|m|m|m|r|r]; simpl; try exact Hinv.
  - unfold render. destruct (deps st) as [[c0 u0]|] eqn:Hd.
    + destruct (conversation_changed c0 c || bool_decide (u0 ≠ u)) eqn:Hr.
      * intros i Hi. split; [|by eexists].
        destruct (bool_decide (c0 ≠ c)); simpl in *; by apply Hreload.
      * intros i Hi. split; [|by eexists].
        destruct (bool_decide (c0 ≠ c)); simpl in *; by apply Hlast.
    + intros i Hi. simpl in *. split; [|by eexists].
      rewrite length_app. simpl.
      apply lookup_app_Some in Hi as [Hi|[Hge Hi]].
      * apply Hinv in Hi as [_ [? Hs]]. congruence.
      * apply list_lookup_singleton_Some in Hi as [Hi _]. lia.
  - unfold unmount. destruct (deps st) as [d|] eqn:Hd; [|exact Hinv].
    intros i Hi. simpl in Hi.
    pose proof (lookup_lt_Some _ _ _ Hi) as Hlt. rewrite length_insert in Hlt.
    rewrite cleanup_clears in Hi by done. discriminate.
  - unfold initMessages_resume. destruct o as [next|]; [|exact Hinv].
    by destruct (mounted st !! i) as [[]|].
Qed.

Lemma one_live_run_reachable evs : one_live_run (run evs init).
Proof.
  induction evs as [|e evs IH] using rev_ind.
  - apply one_live_run_init.
  - rewrite run_snoc. by apply one_live_run_step.
Qed.

(** A flag that is false stays false. *)
Lemma step_keeps_false st e i :
  mounted st !! i = Some false → mounted (step st e) !! i = Some false.
Proof.
  intros Hi.
  destruct e as [c u| |j o|m|m|m|r|r]; simpl; try exact Hi.
  - unfold render. destruct (deps st) as [[c0 u0]|]; simpl.
    + repeat case_match; simpl; try done;
        apply lookup_app_l_Some; by try apply cleanup_keeps_false.
    + by apply lookup_app_l_Some.
  - unfold unmount. destruct (deps st); [|done].
    by apply cleanup_keeps_false.
  - unfold initMessages_resume. destruct o as [next|]; [|done].
    by destruct (mounted st !! j) as [[]|].
Qed.

Lemma run_keeps_false evs st i :
  mounted st !! i = Some false → mounted (run evs st) !! i = Some false.
Proof.
  revert st. induction evs as [|e evs IH]; intros st Hi; [done|].
  simpl. by apply IH, step_keeps_false.
Qed.

(** Every query the hook issues asks for the most recent page: the
    cursor is cleared before [initMessages] reads it. *)
Lemma issued_queries_from_latest evs :
  Forall (λ q, startId q = None ∧ limit q = 200%nat ∧ direction q = backwards)
    (queries (run evs init)).
Proof.
  induction evs as [|e evs IH] using rev_ind; [constructor|].
  rewrite run_snoc. set (st := run evs init) in *.
  destruct e as [c u| |i o|m|m|m|r|r]; simpl; try exact IH.
  - unfold render. destruct (deps st) as [[c0 u0]|]; simpl.
    + repeat case_match; simpl; try exact IH;
        apply Forall_app; (split; [exact IH|by repeat constructor]).
    + apply Forall_app. split; [exact IH|by repeat constructor].
  - unfold unmount. by destruct (deps st).
  - unfold initMessages_resume. destruct o as [next|]; [|exact IH].
    by destruct (mounted st !! i) as [[]|].
Qed.

End ViewModelFacts.

(** ** Loading a page *)

Section Loading.
Import ViewModel Asked.
Implicit Types (st : Hook) (e : Event) (evs : list Event) (i : nat).


(** The rejected query of the first load of channel [general]: the
    loading flag is still set. *)
Lemma failed_first_load_keeps_loading :
  ¬ failure_clears_loading (step init (Render "general" None)) 0.
Proof. intros (_ & _ & Hl). discriminate Hl. Qed.

(** C2, as the code has it: a rejected page query changes nothing at
    all, so list and cursor stay as they are and so does the loading
    flag, which the load of any channel has set to true. *)
Theorem failed_query_changes_nothing st i (c : string) (u : option string) :
  step st (QuerySettled i Rejected) = st
  ∧ isLoading (step init (Render c u)) = true
  ∧ isLoading (step (step init (Render c u)) (QuerySettled i Rejected)) = true.
Proof. done. Qed.



(** C7: once the channel has changed or the hook is unmounted, the
    result of a query issued before, whenever it arrives, changes neither
    the list nor the cursor nor the loading flag. *)
Theorem stale_query_result_discarded evs evs' e i (o : Outcome) :
  let st := run evs init in
  (i < length (mounted st))%nat →
  channel_changes st e ∨ e = Unmount →
  let st' := run evs' (step st e) in
  step st' (QuerySettled i o) = st'
  ∧ mounted st' !! i = Some false.
Proof.
  intros st Hi He st'.
  assert (mounted st' !! i = Some false) as Hflag.
  { apply run_keeps_false.
    pose proof (one_live_run_reachable evs) as Hinv. fold st in Hinv.
    assert (∀ j, mounted st !! j = Some true → S j = length (mounted st))
      as Hlast by (intros j Hj; by apply Hinv).
    destruct He as [(c & u & c0 & u0 & -> & Hd & Hne)| ->]; simpl.
    - unfold render. rewrite Hd.
      unfold conversation_changed.
      rewrite !bool_decide_eq_true_2 by done. simpl.
      apply lookup_app_l_Some. by apply cleanup_clears.
    - unfold unmount. destruct (deps st) as [d|] eqn:Hd; simpl.
      + by apply cleanup_clears.
      + destruct (lookup_lt_is_Some_2 _ _ Hi) as [[] Hb]; [|done].
        apply Hinv in Hb as [_ [? Hs]]. congruence. }
  split; [|done].
  simpl. unfold initMessages_resume. destruct o; [|done].
  by rewrite Hflag.
Qed.

Lemma stale_query_result_discarded_witness :
  let st' := run [MessageCreated Sample.m1]
               (step (run [Render "general" None] init) (Render "random" None)) in
  step st' (QuerySettled 0 (Resolved [Sample.m2])) = st'
  ∧ mounted st' !! 0%nat = Some false.
Proof.
  apply (stale_query_result_discarded
           [Render "general" None] [MessageCreated Sample.m1]
           (Render "random" None) 0 (Resolved [Sample.m2])).
  - simpl. lia.
  - left. exists "random", None, "general", None. by repeat split.
Defined.

End Loading.

(** ** Live events *)

Section LiveEvents.
Import ReactionMapper ViewModel.
Implicit Types (st : Hook) (m : Message) (r : Reaction).

(** C8: an edited-message event puts its payload at every position whose
    message has the payload's [id], leaves every other position as it is,
    and leaves the whole list as it is when no message has that [id]. *)
Theorem edited_replaces_matching_only st (updated : Message) :
  let l := messages st in
  let l' := messages (step st (MessageEdited updated)) in
  length l' = length l
  ∧ (∀ (i : nat) m, l !! i = Some m → id m = id updated → l' !! i = Some updated)
  ∧ (∀ (i : nat) m, l !! i = Some m → id m ≠ id updated → l' !! i = Some m)
  ∧ (id updated ∉ id <$> l → l' = l).
Proof.
  intros l l'. unfold l', l. simpl.
  split; [apply length_fmap|].
  split.
  { intros i m Hi Hid. rewrite list_lookup_fmap, Hi. simpl.
    unfold update_with. by rewrite bool_decide_eq_false_2 by tauto. }
  split.
  { intros i m Hi Hid. rewrite list_lookup_fmap, Hi. simpl.
    unfold update_with. by rewrite bool_decide_eq_true_2. }
  intros Habs. induction (messages st) as [|x rest IH]; [done|].
  rewrite fmap_cons, not_elem_of_cons in Habs. destruct Habs as [Hx Hrest].
  rewrite fmap_cons. f_equal; [|by apply IH].
  unfold update_with. rewrite bool_decide_eq_true_2; [done|congruence].
Qed.

Lemma edited_replaces_matching_only_witness :
  let st := run [Render "general" None;
                 MessageCreated Sample.m1; MessageCreated Sample.m2] init in
  let edited := mkMessage "m2" "general" "bob" 100 "edited" [] in
  messages (step st (MessageEdited edited)) !! 1%nat = Some edited
  ∧ messages (step st (MessageEdited edited)) !! 0%nat = Some Sample.m1
  ∧ messages (step st (MessageEdited Sample.real_x)) = messages st.
Proof.
  intros st edited.
  destruct (edited_replaces_matching_only st edited) as (_ & Hhit & Hmiss & _).
  destruct (edited_replaces_matching_only st Sample.real_x) as (_ & _ & _ & Habs).
  split; [by apply (Hhit 1%nat Sample.m2)|].
  split; [by apply (Hmiss 0%nat Sample.m1)|].
  apply Habs. vm_compute. intros Hin.
  apply elem_of_cons in Hin as [Hin|Hin]; [discriminate Hin|].
  apply list_elem_of_singleton in Hin. discriminate Hin.
Defined.

Lemma mapFromUpdate_idem m r (u : option string) :
  mapFromUpdate (mapFromUpdate m r u) r u = mapFromUpdate m r u.
Proof.
  destruct (decide (id m = messageId r)) as [Hid|Hid].
  - pose proof (mapFromUpdate_has_entry m r u Hid) as Hnew.
    pose proof (mapFromUpdate_id m r u) as Hid'.
    unfold mapFromUpdate at 1.
    rewrite Hid', bool_decide_eq_true_2 by done. by rewrite Hnew.
  - unfold mapFromUpdate.
    by rewrite !(bool_decide_eq_false_2 (id m = messageId r)).
Qed.

(** C9: a reaction-created event delivered twice leaves the state that
    one delivery leaves; a message that already holds an entry with the
    event's [reactionId] is returned as it is, and one that does not
    gains exactly that entry. *)
Theorem reaction_created_idempotent st r :
  step (step st (ReactionCreated r)) (ReactionCreated r)
  = step st (ReactionCreated r)
  ∧ (∀ m u, has_entry m r = true → mapFromUpdate m r u = m)
  ∧ (∀ m u, id m = messageId r → has_entry m r = false →
       reactions (mapFromUpdate m r u) = reactions m ++ [entry_of r]).
Proof.
  split.
  { simpl. unfold handleReactionAdd, setMessages, username. simpl.
    f_equal. rewrite <- list_fmap_compose. apply list_fmap_ext.
    intros _ m _. simpl. apply mapFromUpdate_idem. }
  split.
  { intros m u Hh. unfold mapFromUpdate. rewrite Hh. by case_bool_decide. }
  intros m u Hid Hh. unfold mapFromUpdate.
  by rewrite bool_decide_eq_true_2, Hh.
Qed.

Lemma reaction_created_idempotent_witness :
  let st := run [Render "general" None; MessageCreated Sample.m1] init in
  let once := step st (ReactionCreated Sample.r1) in
  mapFromUpdate (mkMessage "m1" "general" "alice" 0 "" [entry_of Sample.r1])
    Sample.r1 None
  = mkMessage "m1" "general" "alice" 0 "" [entry_of Sample.r1]
  ∧ reactions (mapFromUpdate Sample.m1 Sample.r1 None) = [entry_of Sample.r1]
  ∧ step once (ReactionCreated Sample.r1) = once.
Proof.
  intros st once.
  destruct (reaction_created_idempotent st Sample.r1) as (Htwice & Hkeep & Hadd).
  split; [by apply Hkeep|]. split; [by apply Hadd|]. exact Htwice.
Defined.

End LiveEvents.

(** ** Order of the feed *)

Section Chronology.
Import ViewModel Asked.

Lemma chronological_strongly (l : list Message) :
  chronological l ↔ StronglySorted Z.le (created_at <$> l).
Proof.
  unfold chronological. split.
  - apply Sorted_StronglySorted. intros a b c. lia.
  - apply StronglySorted_Sorted.
Qed.

Lemma StronglySorted_sublist {A} (R : relation A) (l1 l2 : list A) :
  l1 `sublist_of` l2 → StronglySorted R l2 → StronglySorted R l1.
Proof.
  induction 1 as [|x l1 l2 Hsub IH|x l1 l2 Hsub IH]; [done|..].
  - rewrite !StronglySorted_cons, !Forall_forall. intros [Hx Hs].
    split; [|by apply IH]. intros y Hy. apply Hx. by eapply elem_of_sublist.
  - rewrite StronglySorted_cons. intros [_ Hs]. by apply IH.
Qed.

Lemma chronological_uniq (l : list Message) :
  chronological l → chronological (uniq l id).
Proof.
  rewrite !chronological_strongly.
  apply StronglySorted_sublist, fmap_sublist, uniq_sublist.
Qed.

Lemma chronological_app (l1 l2 : list Message) :
  chronological l1 → chronological l2 →
  (∀ x y, x ∈ l1 → y ∈ l2 → created_at x ≤ created_at y) →
  chronological (l1 ++ l2).
Proof.
  rewrite !chronological_strongly, fmap_app. intros H1 H2 Hle.
  apply StronglySorted_app_2; [|done..].
  intros t1 t2 (x & -> & Hx)%list_elem_of_fmap (y & -> & Hy)%list_elem_of_fmap.
  by apply Hle.
Qed.

Lemma fold_pages_chronological (pages : list (list Message)) (prev : list Message) :
  chronological prev →
  backward_pages pages →
  Forall (λ q, ∀ x y, x ∈ q → y ∈ prev → created_at x ≤ created_at y) pages →
  chronological
    (fold_left (λ prevMessages nextMessages, merge_page nextMessages prevMessages)
       pages prev).
Proof.
  revert prev.
  induction pages as [|page later IH]; intros prev Hprev Hpages Hold; [done|].
  simpl in *. destruct Hpages as (Hpage & Hlater & Hrest).
  apply Forall_cons in Hold as [Hhead Htail].
  apply IH; [|done|].
  - unfold merge_page. by apply chronological_uniq, chronological_app.
  - rewrite Forall_forall in Hlater, Htail. apply Forall_forall.
    intros q Hq x y Hx Hy. unfold merge_page in Hy.
    apply uniq_elem_of, elem_of_app in Hy as [Hy|Hy].
    + by apply (Hlater q Hq).
    + by apply (Htail q Hq).
Qed.

Lemma load_pages_chronological (pages : list (list Message)) :
  backward_pages pages → chronological (load_pages pages).
Proof.
  intros Hpages. unfold load_pages.
  apply fold_pages_chronological; [constructor|done|].
  apply Forall_forall. intros q _ x y _ Hy. by apply elem_of_nil in Hy.
Qed.

(** One chronological page and one revealed bot message: the bot
    message, five milliseconds younger than the first real one, comes
    after the last real one. *)
Lemma feed_with_bots_not_chronological :
  backward_pages [[Sample.m1; Sample.m2]]
  ∧ load_pages [[Sample.m1; Sample.m2]] = [Sample.m1; Sample.m2]
  ∧ ¬ chronological
        (Compositor.messages true (load_pages [[Sample.m1; Sample.m2]])
           [Sample.b1]).
Proof.
  split; [|split; [reflexivity|]].
  - simpl. split; [|done]. unfold chronological. simpl.
    repeat constructor. lia.
  - unfold chronological. vm_compute.
    intros Hs. apply Sorted_inv in Hs as [Hs _].
    apply Sorted_inv in Hs as [_ Hd]. apply HdRel_inv in Hd. by apply Hd.
Qed.

(** The bot message of that feed is the one the generator reveals for
    the sample script once its five milliseconds have passed. *)
Lemma sample_feed_from_generator :
  let st := run [Render "general" None;
                 QuerySettled 0 (Resolved [Sample.m1; Sample.m2])] init in
  Compositor.feed true Sample.botConfig Sample.bot_id st 50
  = [Sample.m1; Sample.m2; Sample.b1].
Proof. by vm_compute. Qed.

(** C5, as the code has it: the feed is the real list followed by the
    bot list, de-duplicated, and is not sorted. For pages that are
    chronological and arrive newest page first the real list is
    chronological; the feed is too when bots are disabled, or when the bot
    list is chronological and holds nothing older than a real message. *)
Theorem feed_chronological_for_backward_pages (WITH_BOTS : bool)
    (pages : list (list Message)) (bot : list Message) :
  backward_pages pages →
  (WITH_BOTS = true →
     chronological bot
     ∧ ∀ r b, r ∈ load_pages pages → b ∈ bot → created_at r ≤ created_at b) →
  chronological (load_pages pages)
  ∧ chronological (Compositor.messages WITH_BOTS (load_pages pages) bot).
Proof.
  intros Hpages Hbot.
  pose proof (load_pages_chronological pages Hpages) as Hreal.
  split; [done|].
  unfold Compositor.messages. apply chronological_uniq.
  destruct WITH_BOTS.
  - destruct Hbot as [Hb Hle]; [done|]. by apply chronological_app.
  - by rewrite app_nil_r.
Qed.

Lemma feed_chronological_for_backward_pages_witness :
  chronological
    (Compositor.messages true
       (load_pages [[Sample.m2]; [Sample.m1]]) [Sample.b2]).
Proof.
  apply (feed_chronological_for_backward_pages true
           [[Sample.m2]; [Sample.m1]] [Sample.b2]).
  - simpl. split; [repeat constructor|]. split; [|by repeat constructor].
    constructor; [|done]. intros x y ->%list_elem_of_singleton ->%list_elem_of_singleton.
    simpl. lia.
  - intros _. split; [repeat constructor|].
    intros r b Hr ->%list_elem_of_singleton. vm_compute in Hr.
    apply elem_of_cons in Hr as [->|Hr]; [simpl; lia|].
    apply list_elem_of_singleton in Hr as ->. simpl. lia.
Defined.

End Chronology.

(** ** The anchor of the bot feed *)

Section Anchor.
Import ViewModel Asked Bots.

Lemma Sorted_le_head (x : Z) (l : list Z) :
  Sorted Z.le l → head l = Some x → Forall (λ y, x ≤ y) l.
Proof.
  intros Hs%Sorted_StronglySorted; [|intros a b c; lia].
  destruct Hs as [|y l Hl Hy]; intros Hhead; [done|].
  injection Hhead as ->. constructor; [lia|done].
Qed.

(** A page that arrives newest first: the first message of the list is
    its newest, not its earliest. *)
Lemma anchor_of_newest_first_page :
  let st := run [Render "general" None;
                 QuerySettled 0 (Resolved [Sample.m2; Sample.m1])] init in
  ¬ anchor_is_earliest (messages st) (Compositor.anchor (messages st)).
Proof.
  simpl. intros [_ Hmin].
  assert (100 ≤ created_at Sample.m1) as Hle.
  { apply Hmin. right. by left. }
  simpl in Hle. lia.
Qed.

(** C3, as the code has it: the anchor given to the bot feed is the
    creation time of the first message of the real list, which is the
    earliest one when the list is chronological; with no real message
    there is no anchor, and the generator emits nothing. *)
Theorem anchor_is_first_created_at (bot_id : nat → BotScriptEntry → string)
    (cfg : BotConfig) (userMessages : list Message) (now : Z) :
  Compositor.anchor userMessages = created_at <$> head userMessages
  ∧ (userMessages ≠ [] → is_Some (Compositor.anchor userMessages))
  ∧ (chronological userMessages →
       anchor_is_earliest userMessages (Compositor.anchor userMessages))
  ∧ (userMessages = [] →
       Compositor.anchor userMessages = None
       ∧ useBots bot_id cfg (Compositor.anchor userMessages) now = []).
Proof.
  unfold Compositor.anchor. rewrite <- head_lookup.
  split; [done|]. split.
  { destruct userMessages; [done|]. intros _. by eexists. }
  split; [|by intros ->].
  intros Hch. destruct userMessages as [|m rest]; [done|]. simpl.
  split; [exists m; split; [by left|done]|].
  intros m' Hm'.
  pose proof (Sorted_le_head (created_at m) _ Hch eq_refl) as Hall.
  rewrite Forall_forall in Hall. apply Hall.
  by apply (list_elem_of_fmap_2 created_at) in Hm'.
Qed.

Lemma anchor_is_first_created_at_witness :
  anchor_is_earliest [Sample.m1; Sample.m2]
    (Compositor.anchor [Sample.m1; Sample.m2])
  ∧ is_Some (Compositor.anchor [Sample.m1; Sample.m2])
  ∧ useBots Sample.bot_id Sample.botConfig (Compositor.anchor []) 50 = [].
Proof.
  destruct (anchor_is_first_created_at Sample.bot_id Sample.botConfig
              [Sample.m1; Sample.m2] 50) as (_ & Hsome & Hearly & _).
  destruct (anchor_is_first_created_at Sample.bot_id Sample.botConfig [] 50)
    as (_ & _ & _ & Hnone).
  split.
  - apply Hearly. unfold chronological. simpl. repeat constructor. lia.
  - split; [by apply Hsome|]. by apply Hnone.
Defined.

(** On a page of distinct ids whose first and last messages differ in
    time, the anchor cannot be the earliest time and the cursor the
    oldest message at once. *)
Lemma anchor_and_cursor_disagree (page : list Message) (a b : Message)
    (c : string) (u : option string) :
  NoDup (id <$> page) →
  head page = Some a → last page = Some b → created_at a ≠ created_at b →
  let st := run [Render c u; QuerySettled 0 (Resolved page)] init in
  ¬ (anchor_is_earliest (messages st) (Compositor.anchor (messages st))
     ∧ cursor_is_oldest page (pageCursor st)).
Proof.
  intros Hnd Ha Hb Hne st [Hanchor Hcursor].
  unfold st in *. simpl in *. unfold merge_page, last_id in *.
  rewrite app_nil_r, uniq_NoDup_id in Hanchor by done.
  unfold Compositor.anchor in Hanchor.
  rewrite <- head_lookup, Ha in Hanchor. simpl in Hanchor.
  rewrite Hb in Hcursor. simpl in Hcursor.
  destruct Hanchor as [_ Hmin]. destruct Hcursor as (m & Hm & Hid & Hold).
  assert (m = b) as ->.
  { apply last_Some_elem_of in Hb.
    destruct (NoDup_ids_only page m Hnd Hm) as [_ Hfm].
    destruct (NoDup_ids_only page b Hnd Hb) as [_ Hfb].
    rewrite Hid in Hfm. congruence. }
  apply Hne. apply Z.le_antisymm.
  - apply Hmin. by apply last_Some_elem_of.
  - apply Hold. by apply head_Some_elem_of.
Qed.

End Anchor.

(** ** Routing of reactions *)

Section Routing.
Import Bots Asked.

(** A real user named like a bot, bots enabled: adding a reaction goes
    to the bot feed, removing one goes to the backend. *)
Lemma removeReaction_ignores_author :
  Sample.m3 ∈ Compositor.messages true [Sample.m3] []
  ∧ bot_author Sample.botConfig Sample.m3 = true
  ∧ ¬ routed_by_author true Sample.botConfig
        (Compositor.messages true [Sample.m3] []) Sample.m3.
Proof.
  split; [by left|]. split; [done|].
  intros Hr. destruct (Hr "like" "r1") as [_ Hrem].
  vm_compute in Hrem. discriminate Hrem.
Qed.

(** C4, as the code has it: for a message of the feed, [addReaction]
    goes to the bot feed exactly when bots are enabled and the author
    starts with the bot prefix; [removeReaction] goes to the bot feed
    exactly when bots are enabled and the message's conversation is the
    bot channel; each goes to the view model's backend call otherwise. *)
Theorem reactions_routed_by_provenance (WITH_BOTS : bool) (cfg : BotConfig)
    (user bot : list Message) (m : Message) (type rid : string) :
  let feed := Compositor.messages WITH_BOTS user bot in
  m ∈ feed →
  Compositor.addReaction WITH_BOTS cfg feed (id m) type =
    (if WITH_BOTS && String.prefix (usernamePrefix cfg) (created_by m)
     then Compositor.BotAddReaction (id m) type
     else Compositor.UserAddReaction (id m) type)
  ∧ Compositor.removeReaction WITH_BOTS cfg feed (id m) rid =
    (if WITH_BOTS && bool_decide (conversation_id m = channelName cfg)
     then Compositor.BotRemoveReaction rid
     else Compositor.UserRemoveReaction rid).
Proof.
  intros feed Hm.
  assert (find_by_id feed (id m) = Some m) as Hfind.
  { apply NoDup_ids_only; [apply uniq_ids_NoDup|done]. }
  unfold Compositor.addReaction, Compositor.removeReaction.
  rewrite Hfind. simpl. split; [done|].
  assert (bool_decide (Some (conversation_id m) = Some (channelName cfg))
          = bool_decide (conversation_id m = channelName cfg)) as ->; [|done].
  apply bool_decide_ext. split; [by intros [= ->]|by intros ->].
Qed.

Lemma reactions_routed_by_provenance_witness :
  let feed := Compositor.messages true [Sample.m1; Sample.m3] [Sample.b1] in
  Compositor.addReaction true Sample.botConfig feed "b1" "like"
    = Compositor.BotAddReaction "b1" "like"
  ∧ Compositor.removeReaction true Sample.botConfig feed "b1" "r1"
    = Compositor.BotRemoveReaction "r1".
Proof.
  apply (reactions_routed_by_provenance true Sample.botConfig
           [Sample.m1; Sample.m3] [Sample.b1] Sample.b1 "like" "r1").
  vm_compute. right. right. by left.
Defined.

(** C10: an action on an id that no message of the feed carries goes to
    the view model's backend call, never to the bot feed. *)
Theorem unknown_message_routed_to_backend (WITH_BOTS : bool) (cfg : BotConfig)
    (user bot : list Message) (messageId type reactionId : string) :
  let feed := Compositor.messages WITH_BOTS user bot in
  messageId ∉ id <$> feed →
  Compositor.addReaction WITH_BOTS cfg feed messageId type
    = Compositor.UserAddReaction messageId type
  ∧ Compositor.removeReaction WITH_BOTS cfg feed messageId reactionId
    = Compositor.UserRemoveReaction reactionId.
Proof.
  intros feed Habs. apply find_by_id_None in Habs.
  unfold Compositor.addReaction, Compositor.removeReaction.
  rewrite Habs. simpl. by rewrite !andb_false_r.
Qed.

Lemma unknown_message_routed_to_backend_witness :
  let feed := Compositor.messages true [Sample.m1] [Sample.b1] in
  Compositor.addReaction true Sample.botConfig feed "nope" "like"
    = Compositor.UserAddReaction "nope" "like"
  ∧ Compositor.removeReaction true Sample.botConfig feed "nope" "r1"
    = Compositor.UserRemoveReaction "r1".
Proof.
  apply (unknown_message_routed_to_backend true Sample.botConfig
           [Sample.m1] [Sample.b1] "nope" "like" "r1").
  vm_compute. intros Hin.
  apply elem_of_cons in Hin as [Hin|Hin]; [discriminate Hin|].
  apply list_elem_of_singleton in Hin. discriminate Hin.
Defined.

End Routing.

(** ** Message events on the list *)

Section MessageEvents.
Import ViewModel Kinds.
Implicit Types (st : Hook) (m : Message) (e : Event) (evs : list Event).

Lemma uniq_snoc (l : list Message) m :
  NoDup (id <$> l) →
  uniq (l ++ [m]) id =
    if bool_decide (id m ∈ id <$> l) then l else l ++ [m].
Proof.
  intros Hnd. rewrite uniq_fresh, fresh_app. simpl.
  rewrite fresh_id; [|done|intros k _; apply not_elem_of_nil].
  unfold contains. case_bool_decide; [by rewrite app_nil_r|done].
Qed.

(** X1: on a list of distinct ids, a message-created event appends the
    message when no entry has its id and changes nothing when one has;
    cursor and loading flag are not touched. *)
Theorem created_appends_if_absent st m :
  NoDup (id <$> messages st) →
  let st' := step st (MessageCreated m) in
  messages st' =
    (if bool_decide (id m ∈ id <$> messages st)
     then messages st else messages st ++ [m])
  ∧ pageCursor st' = pageCursor st
  ∧ isLoading st' = isLoading st.
Proof. intros Hnd st'. split; [by apply uniq_snoc|done]. Qed.

Lemma created_appends_if_absent_witness :
  let st := run [Render "general" None; MessageCreated Sample.m1] init in
  messages (step st (MessageCreated Sample.m2)) = [Sample.m1; Sample.m2]
  ∧ messages (step st (MessageCreated (Sample.msg "m1" "mallory" 7)))
    = [Sample.m1].
Proof.
  intros st.
  assert (NoDup (id <$> messages st)) as Hnd.
  { simpl. constructor; [apply not_elem_of_nil|constructor]. }
  split.
  - apply (created_appends_if_absent st Sample.m2 Hnd).
  - apply (created_appends_if_absent st (Sample.msg "m1" "mallory" 7) Hnd).
Defined.

(** X2: a message-created event delivered twice leaves the state that
    one delivery leaves. *)
Theorem created_twice_is_once st m :
  step (step st (MessageCreated m)) (MessageCreated m)
  = step st (MessageCreated m).
Proof.
  simpl. unfold handleAdd, setMessages. simpl. f_equal.
  set (l := uniq (messages st ++ [m]) id).
  rewrite uniq_snoc by apply uniq_ids_NoDup.
  rewrite bool_decide_eq_true_2; [done|].
  unfold l. rewrite uniq_ids, fmap_app, elem_of_app. right. by left.
Qed.

(** X3: a message-deleted event leaves no entry with the message's id,
    keeps every other entry in its order, changes nothing when no entry
    has the id, and on a list of distinct ids that holds the id removes
    exactly one entry. *)
Theorem deleted_removes_by_id st m :
  let l := messages st in
  let l' := messages (step st (MessageDeleted m)) in
  (id m ∉ id <$> l')
  ∧ l' `sublist_of` l
  ∧ (∀ x, x ∈ l → id x ≠ id m → x ∈ l')
  ∧ (id m ∉ id <$> l → l' = l)
  ∧ (NoDup (id <$> l) → id m ∈ id <$> l → length l = S (length l')).
Proof.
  intros l l'. unfold l', l. simpl. clear l l'.
  split.
  { intros (x & Hid & Hx)%list_elem_of_fmap.
    apply list_elem_of_filter in Hx as [Hne _]. congruence. }
  split; [apply sublist_filter|].
  split.
  { intros x Hx Hne. by apply list_elem_of_filter. }
  split.
  { intros Habs. induction (messages st) as [|x rest IH]; [done|].
    rewrite fmap_cons, not_elem_of_cons in Habs. destruct Habs as [Hx Hrest].
    rewrite filter_cons_True by congruence. f_equal. by apply IH. }
  induction (messages st) as [|x rest IH]; intros Hnd Hin.
  { by apply elem_of_nil in Hin. }
  rewrite fmap_cons in Hnd, Hin. apply NoDup_cons in Hnd as [Hx Hnd].
  destruct (decide (id x = id m)) as [Heq|Hne].
  - rewrite filter_cons_False by tauto. simpl. f_equal.
    rewrite Heq in Hx. clear IH Hin Hnd.
    induction rest as [|y rest IH]; [done|].
    rewrite fmap_cons, not_elem_of_cons in Hx. destruct Hx as [Hy Hrest].
    rewrite filter_cons_True by congruence. simpl. f_equal. by apply IH.
  - rewrite filter_cons_True by done. simpl. f_equal.
    apply IH; [done|]. apply elem_of_cons in Hin as [Hin|Hin]; [congruence|done].
Qed.

Lemma deleted_removes_by_id_witness :
  let st := run [Render "general" None;
                 MessageCreated Sample.m1; MessageCreated Sample.m2] init in
  Sample.m2 ∈ messages (step st (MessageDeleted Sample.m1))
  ∧ messages (step st (MessageDeleted Sample.real_x)) = messages st
  ∧ length (messages st) = S (length (messages (step st (MessageDeleted Sample.m1)))).
Proof.
  intros st.
  destruct (deleted_removes_by_id st Sample.m1) as (_ & _ & Hkeep & _ & Hlen).
  destruct (deleted_removes_by_id st Sample.real_x) as (_ & _ & _ & Habs & _).
  assert (NoDup (id <$> messages st)) as Hnd.
  { simpl. constructor; [|constructor; [apply not_elem_of_nil|constructor]].
    intros Hin. apply list_elem_of_singleton in Hin. discriminate Hin. }
  split; [|split].
  - apply Hkeep; [|discriminate]. simpl. right. by left.
  - apply Habs. simpl. intros Hin.
    apply elem_of_cons in Hin as [Hin|Hin]; [discriminate Hin|].
    apply list_elem_of_singleton in Hin. discriminate Hin.
  - apply Hlen; [exact Hnd|]. simpl. by left.
Defined.

(** X4: on a list of distinct ids, creating a message whose id is new
    and then deleting it gives the list back. *)
Theorem created_then_deleted st m :
  NoDup (id <$> messages st) →
  id m ∉ id <$> messages st →
  messages (step (step st (MessageCreated m)) (MessageDeleted m))
  = messages st.
Proof.
  intros Hnd Hfresh. simpl. rewrite uniq_snoc by done.
  rewrite bool_decide_eq_false_2 by done.
  rewrite filter_app, filter_cons_False, filter_nil, app_nil_r by tauto.
  clear Hnd. induction (messages st) as [|x rest IH]; [done|].
  rewrite fmap_cons, not_elem_of_cons in Hfresh. destruct Hfresh as [Hx Hrest].
  rewrite filter_cons_True by congruence. f_equal. by apply IH.
Qed.

Lemma created_then_deleted_witness :
  let st := run [Render "general" None; MessageCreated Sample.m1] init in
  messages (step (step st (MessageCreated Sample.m2)) (MessageDeleted Sample.m2))
  = [Sample.m1].
Proof.
  intros st. apply (created_then_deleted st Sample.m2).
  - simpl. constructor; [apply not_elem_of_nil|constructor].
  - simpl. intros Hin. apply list_elem_of_singleton in Hin. discriminate Hin.
Defined.

(** X5: a message-edited event leaves the sequence of ids as it is, and
    of two edits of the same id the later one alone decides the list. *)
Theorem edited_keeps_ids_last_wins st (u1 u2 : Message) :
  id <$> messages (step st (MessageEdited u1)) = id <$> messages st
  ∧ (id u1 = id u2 →
       messages (step (step st (MessageEdited u1)) (MessageEdited u2))
       = messages (step st (MessageEdited u2))).
Proof.
  simpl. split.
  { apply fmap_keeps_ids, update_with_id. }
  intros Hid. rewrite <- list_fmap_compose. apply list_fmap_ext.
  intros _ x _. simpl. unfold update_with.
  destruct (decide (id x = id u1)) as [Hx|Hx].
  - rewrite (bool_decide_eq_false_2 (id x ≠ id u1)) by tauto.
    rewrite (bool_decide_eq_false_2 (id u1 ≠ id u2)) by tauto.
    rewrite (bool_decide_eq_false_2 (id x ≠ id u2)); [done|]. rewrite <- Hid. tauto.
  - by rewrite (bool_decide_eq_true_2 (id x ≠ id u1)).
Qed.

Lemma edited_keeps_ids_last_wins_witness :
  let st := run [Render "general" None;
                 MessageCreated Sample.m1; MessageCreated Sample.m2] init in
  let first := mkMessage "m2" "general" "bob" 100 "one" [] in
  let second := mkMessage "m2" "general" "bob" 100 "two" [] in
  messages (step (step st (MessageEdited first)) (MessageEdited second))
  = messages (step st (MessageEdited second)).
Proof.
  intros st first second.
  by apply (edited_keeps_ids_last_wins st first second).
Defined.

(** X6: whatever renders, unmounts, query results and message events
    the hook has seen, its list holds no id twice. *)
Theorem message_events_keep_ids_distinct evs :
  Forall (λ e, is_reaction_event e = false) evs →
  NoDup (id <$> messages (run evs init)).
Proof.
  induction evs as [|e evs IH] using rev_ind; intros Hevs.
  - constructor.
  - apply Forall_app in Hevs as [Hevs _].
    rewrite run_snoc. by apply step_ids_NoDup, IH.
Qed.

Lemma message_events_keep_ids_distinct_witness :
  NoDup (id <$> messages
    (run [Render "general" None;
          QuerySettled 0 (Resolved [Sample.m1; Sample.m1; Sample.m2]);
          MessageCreated Sample.m2;
          MessageEdited Sample.m1] init)).
Proof.
  apply message_events_keep_ids_distinct. by repeat constructor.
Defined.

End MessageEvents.

(** ** The effects of a render *)

Section Effects.
Import ViewModel Kinds.
Implicit Types (st : Hook) (e : Event) (evs : list Event) (i j : nat).

(** X7: in every state the hook can reach, the only run of the loading
    effect that can be live is the latest one, and none is while the hook
    is unmounted; a result that arrives for any other run, or while the
    hook is unmounted, changes nothing. *)
Theorem only_latest_run_is_live evs i j (o : Outcome) :
  let st := run evs init in
  (mounted st !! i = Some true → mounted st !! j = Some true →
     i = j ∧ S i = length (mounted st) ∧ is_Some (deps st))
  ∧ (S i ≠ length (mounted st) → step st (QuerySettled i o) = st)
  ∧ (deps st = None → step st (QuerySettled i o) = st).
Proof.
  intros st.
  pose proof (one_live_run_reachable evs) as Hinv. fold st in Hinv.
  split; [|split].
  - intros Hi Hj.
    destruct (Hinv i Hi) as [Hli Hd]. destruct (Hinv j Hj) as [Hlj _].
    split; [lia|]. split; [exact Hli|exact Hd].
  - intros Hne. simpl. unfold initMessages_resume. destruct o; [|done].
    destruct (mounted st !! i) as [[]|] eqn:Hi; [|done..].
    destruct (Hinv i Hi) as [Hli _]. congruence.
  - intros Hd. simpl. unfold initMessages_resume. destruct o; [|done].
    destruct (mounted st !! i) as [[]|] eqn:Hi; [|done..].
    destruct (Hinv i Hi) as [_ [d Hs]]. congruence.
Qed.

Lemma only_latest_run_is_live_witness :
  let st := run [Render "general" None; Render "random" None] init in
  mounted st = [false; true]
  ∧ step st (QuerySettled 0 (Resolved [Sample.m1])) = st
  ∧ step (step st Unmount) (QuerySettled 1 (Resolved [Sample.m1]))
    = step st Unmount.
Proof.
  intros st. split; [reflexivity|].
  destruct (only_latest_run_is_live
              [Render "general" None; Render "random" None] 0 0
              (Resolved [Sample.m1])) as (_ & Hother & _).
  destruct (only_latest_run_is_live
              [Render "general" None; Render "random" None; Unmount] 1 1
              (Resolved [Sample.m1])) as (_ & _ & Hunmounted).
  split.
  - apply Hother. simpl. lia.
  - apply Hunmounted. reflexivity.
Defined.

Lemma step_queries_length st e :
  length (queries st) = length (mounted st) →
  length (queries (step st e)) = length (mounted (step st e)).
Proof.
  intros Hlen. destruct e as [c u| |i o|m|m|m|r|r]; simpl; try exact Hlen.
  - unfold render. destruct (deps st) as [[c0 u0]|]; simpl.
    + repeat case_match; simpl; try exact Hlen;
        rewrite !length_app, ?length_insert; simpl; lia.
    + rewrite !length_app. simpl. lia.
  - unfold unmount. destruct (deps st); simpl; [|done].
    by rewrite length_insert.
  - unfold initMessages_resume. destruct o as [next|]; [|exact Hlen].
    by destruct (mounted st !! i) as [[]|].
Qed.

(** X8: every run of the loading effect issues one query, and every
    query asks for 200 messages backwards with no [startId]: the cursor
    is cleared before it is read, so no query ever starts from it. *)
Theorem queries_ask_for_latest_page evs :
  let st := run evs init in
  Forall (λ q, q = latest_page_query) (queries st)
  ∧ length (queries st) = length (mounted st).
Proof.
  intros st. unfold st. split.
  - eapply Forall_impl; [apply issued_queries_from_latest|].
    intros [l d s] (Hs & Hl & Hd). simpl in *. by subst.
  - induction evs as [|e evs IH] using rev_ind; [done|].
    rewrite run_snoc. by apply step_queries_length.
Qed.

(** X9: a render with another channel name empties the list, clears
    the cursor, sets the loading flag, retires the run that was live and
    starts a new one with its query. *)
Theorem channel_change_resets st (c0 c : string) (u0 u : option string) :
  deps st = Some (c0, u0) →
  c0 ≠ c →
  let st' := step st (Render c u) in
  messages st' = []
  ∧ pageCursor st' = None
  ∧ isLoading st' = true
  ∧ queries st' = queries st ++ [latest_page_query]
  ∧ mounted st' = <[pred (length (mounted st)) := false]> (mounted st) ++ [true]
  ∧ deps st' = Some (c, u).
Proof.
  intros Hd Hne st'. unfold st'. simpl. unfold render. rewrite Hd.
  unfold conversation_changed. rewrite !bool_decide_eq_true_2 by done.
  by simpl.
Qed.

Lemma channel_change_resets_witness :
  let st := run [Render "general" None; MessageCreated Sample.m1] init in
  let st' := step st (Render "random" None) in
  messages st' = [] ∧ isLoading st' = true ∧ mounted st' = [false; true].
Proof.
  intros st st'.
  destruct (channel_change_resets st "general" "random" None None)
    as (Hm & _ & Hl & _ & Hrun & _); [reflexivity|discriminate|].
  split; [exact Hm|]. split; [exact Hl|exact Hrun].
Defined.

(** X10: a render with the same channel name and another username keeps
    the list, and reloads: the cursor is cleared, the loading flag set,
    the live run retired and a new one started with its query. *)
Theorem username_change_keeps_list st (c : string) (u0 u : option string) :
  deps st = Some (c, u0) →
  u0 ≠ u →
  let st' := step st (Render c u) in
  messages st' = messages st
  ∧ pageCursor st' = None
  ∧ isLoading st' = true
  ∧ queries st' = queries st ++ [latest_page_query]
  ∧ mounted st' = <[pred (length (mounted st)) := false]> (mounted st) ++ [true]
  ∧ deps st' = Some (c, u).
Proof.
  intros Hd Hne st'. unfold st'. simpl. unfold render. rewrite Hd.
  unfold conversation_changed.
  rewrite (bool_decide_eq_false_2 (c ≠ c)) by tauto.
  rewrite (bool_decide_eq_true_2 (u0 ≠ u)) by done.
  by simpl.
Qed.

Lemma username_change_keeps_list_witness :
  let st := run [Render "general" None; MessageCreated Sample.m1] init in
  let st' := step st (Render "general" (Some "alice")) in
  messages st' = [Sample.m1] ∧ isLoading st' = true
  ∧ mounted st' = [false; true].
Proof.
  intros st st'.
  destruct (username_change_keeps_list st "general" None (Some "alice"))
    as (Hm & _ & Hl & _ & Hrun & _); [reflexivity|discriminate|].
  split; [exact Hm|]. split; [exact Hl|exact Hrun].
Defined.

(** X11: a render with the channel name and username of the render
    before changes nothing: no effect runs, no query is issued. *)
Theorem rerender_same_arguments st (c : string) (u : option string) :
  deps st = Some (c, u) → step st (Render c u) = st.
Proof.
  intros Hd. simpl. unfold render. rewrite Hd.
  unfold conversation_changed.
  rewrite (bool_decide_eq_false_2 (c ≠ c)) by tauto.
  rewrite (bool_decide_eq_false_2 (u ≠ u)) by tauto.
  simpl. destruct st. simpl in *. by subst.
Qed.

Lemma rerender_same_arguments_witness :
  let st := run [Render "general" (Some "alice");
                 QuerySettled 0 (Resolved [Sample.m1])] init in
  step st (Render "general" (Some "alice")) = st.
Proof.
  intros st. by apply (rerender_same_arguments st "general" (Some "alice")).
Defined.

End Effects.

(** ** Merging a page *)

Section MergePage.
Import ViewModel.

Lemma fresh_all_seen {A K} `{EqDecision K} (f : A → K) (seen : list K)
    (l : list A) :
  (∀ x, x ∈ l → f x ∈ seen) → fresh f seen l = [].
Proof.
  induction l as [|x l IH]; intros Hall; simpl; [done|].
  assert (contains seen (f x) = true) as ->.
  { apply contains_true, Hall. by left. }
  apply IH. intros y Hy. apply Hall. by right.
Qed.

Lemma fresh_fresh {A K} `{EqDecision K} (f : A → K) (seen : list K)
    (l : list A) :
  fresh f seen (fresh f seen l) = fresh f seen l.
Proof.
  apply fresh_id; [apply fresh_NoDup|].
  intros k Hk. by apply fresh_keys in Hk as [_ Hk].
Qed.

(** X12: merging the same page a second time changes nothing, whatever
    the list and the page hold. *)
Theorem merge_page_twice (page l : list Message) :
  merge_page page (merge_page page l) = merge_page page l.
Proof.
  unfold merge_page.
  rewrite !uniq_fresh, (fresh_app id [] page l). simpl.
  rewrite fresh_app. simpl. f_equal.
  rewrite fresh_app.
  rewrite fresh_all_seen.
  2: { intros x Hx. apply fresh_elem_of in Hx as [Hx _].
       by apply list_elem_of_fmap_2. }
  simpl.
  rewrite (fresh_seen_ext id _ (id <$> page)).
  - apply fresh_fresh.
  - intros k. rewrite elem_of_app, fresh_keys. tauto.
Qed.

(** X13: after a page is merged, the entry of an id is the page's first
    message with that id if the page has one, and the list's otherwise:
    the fetched copy replaces the one held. A page that shares no id with
    the list, neither holding an id twice, is put in front as it is. *)
Theorem merge_page_fetched_wins (page l : list Message) (k : string) :
  find_by_id (merge_page page l) k =
    match find_by_id page k with
    | Some m => Some m
    | None => find_by_id l k
    end
  ∧ (NoDup (id <$> page ++ l) → merge_page page l = page ++ l).
Proof.
  unfold merge_page. split.
  - by rewrite find_by_id_uniq, find_by_id_app.
  - apply uniq_NoDup_id.
Qed.

Lemma merge_page_fetched_wins_witness :
  merge_page [Sample.m1] [Sample.m2] = [Sample.m1; Sample.m2].
Proof.
  apply (merge_page_fetched_wins [Sample.m1] [Sample.m2] "m1").
  simpl. constructor; [|constructor; [apply not_elem_of_nil|constructor]].
  intros Hin. apply list_elem_of_singleton in Hin. discriminate Hin.
Defined.

End MergePage.

(** ** The feed and its anchor under events *)

Section FeedFacts.
Import ViewModel.

(** X14: with bots disabled the feed is the real list itself, when that
    list holds no id twice (as every list of the view model does). *)
Theorem feed_without_bots (user bot : list Message) :
  NoDup (id <$> user) → Compositor.messages false user bot = user.
Proof.
  intros Hnd. unfold Compositor.messages.
  rewrite app_nil_r. by apply uniq_NoDup_id.
Qed.

Lemma feed_without_bots_witness :
  Compositor.messages false [Sample.m1; Sample.m2] [Sample.b1]
  = [Sample.m1; Sample.m2].
Proof.
  apply feed_without_bots. simpl.
  constructor; [|constructor; [apply not_elem_of_nil|constructor]].
  intros Hin. apply list_elem_of_singleton in Hin. discriminate Hin.
Defined.

(** X15: with bots enabled the feed is the real list, whole and in its
    order, followed by bot messages only: those whose id no real message
    has, in the bot list's order, and every such id is there. *)
Theorem feed_real_messages_first (user bot : list Message) :
  NoDup (id <$> user) →
  ∃ rest,
    Compositor.messages true user bot = user ++ rest
    ∧ rest `sublist_of` bot
    ∧ (∀ b, b ∈ rest → id b ∉ id <$> user)
    ∧ (∀ b, b ∈ bot → id b ∉ id <$> user → id b ∈ id <$> rest).
Proof.
  intros Hnd. exists (fresh id (id <$> user) bot).
  unfold Compositor.messages.
  rewrite uniq_fresh, fresh_app. simpl.
  rewrite fresh_id; [|done|intros k _; apply not_elem_of_nil].
  split; [done|]. split; [apply fresh_sublist|]. split.
  - intros b Hb. by apply fresh_elem_of in Hb as [_ Hb].
  - intros b Hb Hfresh. apply fresh_keys. split; [|done].
    by apply list_elem_of_fmap_2.
Qed.

Lemma feed_real_messages_first_witness :
  ∃ rest,
    Compositor.messages true [Sample.real_x; Sample.m1] [Sample.bot_x; Sample.b1]
    = [Sample.real_x; Sample.m1] ++ rest
    ∧ rest `sublist_of` [Sample.bot_x; Sample.b1]
    ∧ (∀ b, b ∈ rest → id b ∉ id <$> [Sample.real_x; Sample.m1])
    ∧ (∀ b, b ∈ [Sample.bot_x; Sample.b1] →
            id b ∉ id <$> [Sample.real_x; Sample.m1] → id b ∈ id <$> rest).
Proof.
  apply (feed_real_messages_first
           [Sample.real_x; Sample.m1] [Sample.bot_x; Sample.b1]).
  simpl. constructor; [|constructor; [apply not_elem_of_nil|constructor]].
  intros Hin. apply list_elem_of_singleton in Hin. discriminate Hin.
Defined.

Lemma head_uniq (l : list Message) : head (uniq l id) = head l.
Proof. rewrite uniq_fresh. by destruct l. Qed.

(** X16: a message-created event never moves the anchor of the bot
    feed once a real message is loaded, and sets it to the new message's
    creation time when none was; a page that arrives for the live run
    moves it to the creation time of the page's first message, and an
    empty page leaves it. *)
Theorem anchor_under_events (st : Hook) (m : Message) (i : nat)
    (page : list Message) :
  Compositor.anchor (messages (step st (MessageCreated m)))
    = Some (default (created_at m) (Compositor.anchor (messages st)))
  ∧ (mounted st !! i = Some true →
     Compositor.anchor (messages (step st (QuerySettled i (Resolved page))))
       = match page with
         | first :: _ => Some (created_at first)
         | [] => Compositor.anchor (messages st)
         end).
Proof.
  unfold Compositor.anchor. rewrite <- !head_lookup. split.
  - simpl. rewrite head_uniq. by destruct (messages st).
  - intros Hlive. simpl. rewrite Hlive. simpl. unfold merge_page.
    rewrite head_uniq. by destruct page.
Qed.

Lemma anchor_under_events_witness :
  let st := run [Render "general" None; MessageCreated Sample.m2] init in
  Compositor.anchor (messages (step st (MessageCreated Sample.m1))) = Some 100
  ∧ Compositor.anchor
      (messages (step st (QuerySettled 0 (Resolved [Sample.m1; Sample.m2]))))
    = Some 0.
Proof.
  intros st.
  destruct (anchor_under_events st Sample.m1 0 [Sample.m1; Sample.m2])
    as [Hcreated Hpage].
  split; [exact Hcreated|]. by apply Hpage.
Defined.

End FeedFacts.

(** ** The colour of a user name *)

Section Hue.
Import MessageItem.

Lemma toInt32_range (x : Z) : - 2 ^ 31 ≤ toInt32 x < 2 ^ 31.
Proof.
  unfold toInt32.
  change (2 ^ 31) with 2147483648. change (2 ^ 32) with 4294967296.
  pose proof (Z.mod_pos_bound (x + 2147483648) 4294967296). lia.
Qed.

Lemma toInt32_small (x : Z) : - 2 ^ 31 ≤ x < 2 ^ 31 → toInt32 x = x.
Proof.
  unfold toInt32.
  change (2 ^ 31) with 2147483648. change (2 ^ 32) with 4294967296.
  intros Hx. rewrite Z.mod_small; lia.
Qed.

Lemma shl_5_small (h : Z) : 0 ≤ h < 2 ^ 26 → shl h 5 = 32 * h.
Proof.
  change (2 ^ 26) with 67108864. intros Hh. unfold shl.
  change (Z.land 5 31) with 5.
  rewrite (toInt32_small h) by (change (2 ^ 31) with 2147483648; lia).
  rewrite Z.shiftl_mul_pow2 by lia. change (2 ^ 5) with 32.
  rewrite toInt32_small; [lia|]. change (2 ^ 31) with 2147483648. lia.
Qed.

Lemma hash_loop_bound (str : list Z) (h : Z) :
  Forall code_unit str →
  Z.abs (hash_loop str h)
  ≤ Z.abs h + Z.of_nat (length str) * (2 ^ 31 + 65535).
Proof.
  change (2 ^ 31) with 2147483648.
  intros Hstr. revert h.
  induction Hstr as [|c rest Hc _ IH]; intros h; simpl; [lia|].
  specialize (IH (hash_step h c)).
  assert (Z.abs (hash_step h c) ≤ Z.abs h + (2147483648 + 65535)) as Hstep.
  { unfold hash_step, code_unit in *.
    pose proof (toInt32_range (Z.shiftl (toInt32 h) (Z.land 5 31))) as Hs.
    change (2 ^ 31) with 2147483648 in Hs. unfold shl. lia. }
  unfold hash_loop in *. lia.
Qed.

(** X17: the hue lies strictly between -360 and 360 and has the sign of
    the hash: a hash that went negative in the 32-bit shift gives a
    negative hue. *)
Theorem hue_range (str : list Z) :
  -360 < stringToHue str < 360
  ∧ (0 ≤ hash_loop str 0 → 0 ≤ stringToHue str)
  ∧ (hash_loop str 0 ≤ 0 → stringToHue str ≤ 0).
Proof.
  unfold stringToHue.
  pose proof (Z.rem_bound_abs (hash_loop str 0) 360) as Habs.
  split; [lia|]. split.
  - intros Hpos. by apply Z.rem_nonneg.
  - intros Hneg. by apply Z.rem_nonpos.
Qed.

Lemma hue_range_witness :
  0 ≤ stringToHue (charCodes "charlie")
  ∧ stringToHue (charCodes "username") ≤ 0
  ∧ stringToHue (charCodes "username") = -330.
Proof.
  destruct (hue_range (charCodes "charlie")) as (_ & Hpos & _).
  destruct (hue_range (charCodes "username")) as (_ & _ & Hneg).
  split; [apply Hpos; by vm_compute|].
  split; [apply Hneg; by vm_compute|reflexivity].
Defined.

(** X18: for a name of at most 2097152 code units every value the hash
    takes in the loop is below 2^53 in size, so the numbers the loop
    computes are exact integers. *)
Theorem hash_stays_exact (str : list Z) (k : nat) :
  Forall code_unit str →
  Z.of_nat (length str) ≤ 2097152 →
  Z.abs (hash_loop (take k str) 0) < 2 ^ 53.
Proof.
  intros Hstr Hlen.
  pose proof (hash_loop_bound (take k str) 0 (Forall_take _ k _ Hstr)) as Hb.
  assert (length (take k str) ≤ length str)%nat as Hk.
  { rewrite length_take. lia. }
  change (2 ^ 31) with 2147483648 in Hb.
  change (2 ^ 53) with 9007199254740992. lia.
Qed.

Lemma hash_stays_exact_witness :
  Z.abs (hash_loop (take 7 (charCodes "username")) 0) < 2 ^ 53.
Proof.
  apply (hash_stays_exact (charCodes "username") 7).
  - repeat constructor; by vm_compute.
  - by vm_compute.
Defined.

Lemma short_ascii_hash (str : list Z) (h : Z) (k : nat) :
  Forall (λ c, 0 ≤ c < 128) str →
  (k + length str ≤ 5)%nat →
  0 ≤ h ≤ short_bound k →
  hash_loop str h = fold_left (λ hash charCode, 31 * hash + charCode) str h
  ∧ 0 ≤ hash_loop str h.
Proof.
  intros Hstr. revert h k.
  induction Hstr as [|c rest Hc _ IH]; intros h k Hlen Hh.
  - split; [done|]. unfold hash_loop. simpl. lia.
  - assert (0 ≤ h < 67108864 ∧ 0 ≤ 31 * h + c ≤ short_bound (S k))
      as [Hsmall Hnext].
    { simpl in Hlen. unfold short_bound in *.
      do 5 (destruct k as [|k]; [lia|]). lia. }
    assert (hash_step h c = 31 * h + c) as Hstep.
    { unfold hash_step. rewrite shl_5_small by done. lia. }
    unfold hash_loop in *. cbn [fold_left]. rewrite Hstep.
    apply (IH _ (S k)); [simpl in Hlen; lia|done].
Qed.

(** X19: for a name of at most five characters below code 128 the
    32-bit shift never wraps: the hash is the base-31 polynomial of the
    codes, and the hue is that number modulo 360, between 0 and 359. *)
Theorem short_name_hue (str : list Z) :
  Forall (λ c, 0 ≤ c < 128) str →
  (length str ≤ 5)%nat →
  hash_loop str 0 = poly31 str
  ∧ stringToHue str = poly31 str `mod` 360
  ∧ 0 ≤ stringToHue str < 360.
Proof.
  intros Hstr Hlen.
  destruct (short_ascii_hash str 0 0 Hstr) as [Heq Hpos]; [lia|simpl; lia|].
  unfold stringToHue, poly31. rewrite <- Heq.
  split; [done|].
  rewrite Z.rem_mod_nonneg by lia.
  split; [done|]. apply Z.mod_pos_bound. lia.
Qed.

Lemma short_name_hue_witness :
  stringToHue (charCodes "alice") = poly31 (charCodes "alice") `mod` 360
  ∧ 0 ≤ stringToHue (charCodes "alice") < 360.
Proof.
  apply (short_name_hue (charCodes "alice")).
  - repeat constructor; by vm_compute.
  - simpl. lia.
Defined.

Lemma string_length_app (s1 s2 : string) :
  String.length (s1 +:+ s2) = (String.length s1 + String.length s2)%nat.
Proof. induction s1 as [|a s1 IH]; simpl; [done|]. by rewrite IH. Qed.

Lemma string_app_inj_r (s1 s2 t : string) :
  s1 +:+ t = s2 +:+ t → s1 = s2.
Proof.
  revert s2. induction s1 as [|a s1 IH]; intros [|b s2] Heq; simpl in *.
  - done.
  - apply (f_equal String.length) in Heq.
    rewrite ?string_length_app in Heq. simpl in Heq.
    rewrite ?string_length_app in Heq. lia.
  - apply (f_equal String.length) in Heq.
    rewrite ?string_length_app in Heq. simpl in Heq.
    rewrite ?string_length_app in Heq. lia.
  - injection Heq as -> Heq. f_equal. by apply IH.
Qed.

(** X20: two names get the same colour exactly when they get the same
    hue: saturation and lightness are fixed, and the hue is written in
    full. *)
Theorem same_colour_same_hue (u v : list Z) :
  getUserColor u = getUserColor v ↔ stringToHue u = stringToHue v.
Proof.
  unfold getUserColor. split; [|by intros ->].
  intros Heq. apply (inj (String.app "hsl(")) in Heq.
  apply string_app_inj_r in Heq. by apply (inj pretty) in Heq.
Qed.

Lemma same_colour_same_hue_witness :
  getUserColor (charCodes "alice") = "hsl(0, 50%, 60%)"
  ∧ getUserColor (charCodes "alice") ≠ getUserColor (charCodes "charlie").
Proof.
  split; [reflexivity|].
  intros Heq. apply (same_colour_same_hue _ _) in Heq.
  vm_compute in Heq. discriminate Heq.
Defined.

End Hue.

(** ** Mounting and reloading *)

Section Reload.
Import ViewModel Kinds.
Implicit Types (st : Hook) (e : Event) (evs : list Event) (i : nat).

(** X21: a change of the username alone also retires the query in
    flight: whenever its result arrives after the reload, it changes
    nothing. *)
Theorem reload_discards_earlier_results evs evs' (c : string)
    (u0 u : option string) i (o : Outcome) :
  let st := run evs init in
  deps st = Some (c, u0) →
  u0 ≠ u →
  (i < length (mounted st))%nat →
  let st' := run evs' (step st (Render c u)) in
  step st' (QuerySettled i o) = st'.
Proof.
  intros st Hd Hne Hi st'.
  assert (mounted st' !! i = Some false) as Hflag.
  { apply run_keeps_false.
    pose proof (one_live_run_reachable evs) as Hinv. fold st in Hinv.
    simpl. unfold render. rewrite Hd. unfold conversation_changed.
    rewrite (bool_decide_eq_false_2 (c ≠ c)) by tauto.
    rewrite (bool_decide_eq_true_2 (u0 ≠ u)) by done. simpl.
    apply lookup_app_l_Some, cleanup_clears; [|done].
    intros j Hj. by apply Hinv. }
  simpl. unfold initMessages_resume. destruct o; [|done].
  by rewrite Hflag.
Qed.

Lemma reload_discards_earlier_results_witness :
  let st' := run [MessageCreated Sample.m1]
               (step (run [Render "general" None] init)
                     (Render "general" (Some "alice"))) in
  step st' (QuerySettled 0 (Resolved [Sample.m2])) = st'.
Proof.
  apply (reload_discards_earlier_results
           [Render "general" None] [MessageCreated Sample.m1]
           "general" None (Some "alice") 0 (Resolved [Sample.m2])).
  - reflexivity.
  - discriminate.
  - simpl. lia.
Defined.

(** X22: the first render of a hook, or the first one after an unmount,
    starts from an empty list with no cursor and the loading flag set,
    and starts a live run with its query; what an earlier mount had
    loaded is gone. *)
Theorem mount_starts_loading st (c : string) (u : option string) :
  deps st = None →
  let st' := step st (Render c u) in
  messages st' = []
  ∧ pageCursor st' = None
  ∧ isLoading st' = true
  ∧ mounted st' = mounted st ++ [true]
  ∧ queries st' = queries st ++ [latest_page_query]
  ∧ deps st' = Some (c, u).
Proof. intros Hd st'. unfold st'. simpl. unfold render. by rewrite Hd. Qed.

Lemma mount_starts_loading_witness :
  let st := run [Render "general" None;
                 QuerySettled 0 (Resolved [Sample.m1]); Unmount] init in
  let st' := step st (Render "general" None) in
  messages st = [Sample.m1] ∧ messages st' = [] ∧ mounted st' = [false; true].
Proof.
  intros st st'. split; [reflexivity|].
  destruct (mount_starts_loading st "general" None eq_refl)
    as (Hm & _ & _ & Hrun & _).
  split; [exact Hm|exact Hrun].
Defined.

End Reload.

(** ** The chat context *)

Section ChatContext.
Import Chat.

(** X23: [useChat] returns a chat only when the context is provided and
    holds one; with no provider, or a provider without a chat, it throws
    "Chat is not setup", and it never returns a missing chat. *)
Theorem useChat_returns_only_a_set_chat {A} (context : option (ChatContextValue A)) :
  (∀ c, useChat context = Returned c ↔ chat <$> context = Some (Some c))
  ∧ (useChat context = Thrown "Chat is not setup" ↔
       context = None ∨ chat <$> context = Some None)
  ∧ (∀ message, useChat context = Thrown message → message = "Chat is not setup").
Proof.
  unfold useChat. destruct context as [[[c|]]|]; simpl.
  - split; [|split].
    + intros c'. split; intros [= ->]; done.
    + split; [done|]. by intros [|].
    + done.
  - split; [|split].
    + intros c'. split; done.
    + split; [by right|done].
    + by intros message [= <-].
  - split; [|split].
    + intros c'. split; done.
    + split; [by left|done].
    + by intros message [= <-].
Qed.

Lemma useChat_returns_only_a_set_chat_witness :
  useChat (Some (mkContext (Some "general"))) = Returned "general"
  ∧ useChat (A := string) None = Thrown "Chat is not setup"
  ∧ useChat (A := string) (Some (mkContext None)) = Thrown "Chat is not setup".
Proof.
  split; [|split].
  - by apply (useChat_returns_only_a_set_chat (Some (mkContext (Some "general")))).
  - apply (useChat_returns_only_a_set_chat (A := string) None). by left.
  - apply (useChat_returns_only_a_set_chat (A := string) (Some (mkContext None))).
    by right.
Defined.

End ChatContext.
